(** * Retrieval orchestration of the Qdrant vector index

    A shallow embedding of
    [backend/src/knowledge_table_api/services/vector_index/qdrant.py]
    (class [QdrantIndex]): the three retrieval strategies
    [vector_search], [hybrid_search], [decomposed_search], and
    [delete_document], together with the properties the design document
    states about them.

    Conventions of the embedding.
    - Python [int] is [Z]; [str] is [string] (ASCII; [str.lower] maps
      [A-Z] to [a-z]).
    - A stored payload is the record the ingestion side writes, with the
      four fields the searches read.
    - Calls into the external collaborators (embedding provider, keyword
      extractor, query decomposer, point store) may raise; the
      orchestrator catches nothing, so every operation lives in the
      error monad [result].
    - The [set] of seen chunk numbers is a [gset Z]. *)

From Stdlib Require Import ZArith String Ascii.
From stdpp Require Import base gmap sets list strings sorting pretty.

#[local] Set Warnings "-clear-no-such-hyp".

(** ** Exceptions *)

Inductive exn : Type :=
| Exception (message : string).

Inductive result (A : Type) : Type :=
| Ok (a : A)
| Raise (e : exn).

Arguments Ok {A} a.
Arguments Raise {A} e.

Definition bind {A B : Type} (m : result A) (k : A -> result B) : result B :=
  match m with
  | Ok a => k a
  | Raise e => Raise e
  end.

Notation "'let*' x := e 'in' k" := (bind e (fun x => k))
  (at level 10, x name, e at level 100, k at level 200).

(** ** Data model *)

(** The payload of a stored point: the four fields the searches read
    from it ([chunk["chunk_number"]], [chunk["text"]],
    [chunk["page_number"]]) or filter on ([document_id]). *)
Record Payload : Type := {
  document_id : string;
  chunk_number : Z;
  page_number : Z;
  text : string
}.

(** An element of [query_points(...).points]. *)
Record ScoredPoint : Type := {
  point_id : Z;
  payload : Payload
}.

(** Modelled from the spec: [Chunk] of [models.query], whose declaration
    is not among the sources; an entry of a result is
    [{content: string, page: integer}]. *)
Record Chunk : Type := {
  content : string;
  page : Z
}.

(** Modelled from the spec: [VectorResponse] of [models.query], whose
    declaration is not among the sources; the result shape is
    [{message: string, chunks: [...]}], and [response["chunks"]] reads
    the field [chunks]. *)
Record VectorResponse : Type := {
  message : string;
  chunks : list Chunk
}.

(** The dictionary [decomposed_search] returns: [sub_queries] is its
    key ["sub_queries"], [sub_query_chunks] its key ["chunks"]. *)
Record DecomposedResponse : Type := {
  sub_queries : list string;
  sub_query_chunks : list Chunk
}.

(** [models.MatchValue], [models.MatchText], [models.FieldCondition],
    [models.Filter]. *)
Inductive Match : Type :=
| MatchValue (value : string)
| MatchText (keyword : string).

Record FieldCondition : Type := {
  key : string;
  match_ : Match
}.

Record Filter : Type := {
  must : list FieldCondition;
  should : list FieldCondition
}.

#[global] Instance Payload_eq_dec : EqDecision Payload.
Proof. solve_decision. Defined.

#[global] Instance Chunk_eq_dec : EqDecision Chunk.
Proof. solve_decision. Defined.

(** ** Strings: [str.lower] and [str.count] *)

Definition lower_ascii (c : ascii) : ascii :=
  let n := nat_of_ascii c in
  if (65 <=? n)%nat && (n <=? 90)%nat then ascii_of_nat (n + 32) else c.

Fixpoint lower (s : string) : string :=
  match s with
  | EmptyString => EmptyString
  | String c s' => String (lower_ascii c) (lower s')
  end.

(** [count_from sub s skip]: the scan of [str.count].  The scan moves
    left to right; after a match at some position it resumes
    [len(sub)] characters further on, so [skip] positions are passed
    over without being tested.  An empty [sub] matches at every
    position, the end of the string included. *)
Fixpoint count_from (sub s : string) (skip : nat) : Z :=
  match s with
  | EmptyString =>
      match skip with
      | O => if String.prefix sub s then 1%Z else 0%Z
      | S _ => 0%Z
      end
  | String _ s' =>
      match skip with
      | S k => count_from sub s' k
      | O =>
          if String.prefix sub s
          then (1 + count_from sub s' (String.length sub - 1))%Z
          else count_from sub s' 0
      end
  end.

(** [s.count(sub)] *)
Definition count (s sub : string) : Z := count_from sub s 0.

(** The nested function of [hybrid_search]:
<<
    def count_keywords(text, keywords):
        return sum(text.lower().count(keyword.lower()) for keyword in keywords)
>> *)
Definition count_keywords (text : string) (keywords : list string) : Z :=
  fold_left Z.add (map (fun keyword => count (lower text) (lower keyword)) keywords) 0%Z.

(** *** Two ways of counting occurrences, for comparison with [count] *)

(** The number of positions of [s] at which [sub] occurs, occurrences
    that overlap each other included. *)
Fixpoint occurrences (sub s : string) : Z :=
  ((if String.prefix sub s then 1 else 0)
   + match s with
     | EmptyString => 0
     | String _ s' => occurrences sub s'
     end)%Z.

(** The score of a text when every keyword is counted with
    [occurrences], case ignored. *)
Definition occurrence_score (text : string) (keywords : list string) : Z :=
  foldr (fun keyword total => (occurrences (lower keyword) (lower text) + total)%Z)
        0%Z keywords.

Fixpoint string_drop (p : nat) (s : string) : string :=
  match p, s with
  | O, _ => s
  | S p', String _ s' => string_drop p' s'
  | S _, EmptyString => EmptyString
  end.

(** [sub] occurs in [s] at position [p]. *)
Definition occurs_at (sub s : string) (p : nat) : Prop :=
  (p <= String.length s)%nat /\ String.prefix sub (string_drop p s) = true.

(** An occurrence at [q] starts after the occurrence at [p] has ended
    (an empty [sub] occupies one position). *)
Definition apart (sub : string) (p q : nat) : Prop :=
  (p + Nat.max 1 (String.length sub) <= q)%nat.

(** [ps] lists, in increasing order, positions of occurrences of [sub]
    in [s] no two of which overlap. *)
Definition non_overlapping (sub s : string) (ps : list nat) : Prop :=
  Forall (occurs_at sub s) ps /\ StronglySorted (apart sub) ps.

(** [sub] can overlap a copy of itself: a proper, non-empty end of
    [sub] is also a beginning of [sub] (as in ["ana"] or ["aa"]). *)
Definition self_overlapping (sub : string) : Prop :=
  exists j, (0 < j < String.length sub)%nat
            /\ String.prefix (string_drop j sub) sub = true.

(** [ps] is a non-overlapping choice of occurrences none of which
    starts in the first [lo] positions. *)
Definition packed (sub s : string) (lo : nat) (ps : list nat) : Prop :=
  Forall (fun p => (lo <= p)%nat) ps /\ non_overlapping sub s ps.

(** ** The builtin [sorted]

    [sorted(l, key=k, reverse=r)] is a stable sort: elements with equal
    keys keep their relative order, also under [reverse=True].  A stable
    sort by a total preorder has one possible output, so the insertion
    sort below computes what the builtin computes. *)
Section Sorted.
Context {A : Type} (k : A -> Z).

Definition goes_before (reverse : bool) (x y : A) : bool :=
  if reverse then (k y <=? k x)%Z else (k x <=? k y)%Z.

Fixpoint insort (reverse : bool) (x : A) (l : list A) : list A :=
  match l with
  | [] => [x]
  | y :: l' =>
      if goes_before reverse x y then x :: y :: l'
      else y :: insort reverse x l'
  end.

Definition sorted (l : list A) (reverse : bool) : list A :=
  foldr (insort reverse) [] l.

(** The order [sorted] establishes between an element and every later
    one. *)
Definition in_order (reverse : bool) (x y : A) : Prop :=
  if reverse then (k y <= k x)%Z else (k x <= k y)%Z.
End Sorted.

(** ** Elimination of duplicate chunks

    The loop shared by [vector_search] and [hybrid_search]:
<<
    seen_chunks, formatted_output = set(), []
    for chunk in final_chunks:
        if chunk["chunk_number"] not in seen_chunks:
            seen_chunks.add(chunk["chunk_number"])
            formatted_output.append(
                {"content": chunk["text"], "page": chunk["page_number"]})
>> *)
Definition format_chunk (chunk : Payload) : Chunk :=
  {| content := text chunk; page := page_number chunk |}.

Definition dedup_step (acc : gset Z * list Chunk) (chunk : Payload)
  : gset Z * list Chunk :=
  let '(seen_chunks, formatted_output) := acc in
  if decide (chunk_number chunk ∈ seen_chunks) then acc
  else ({[chunk_number chunk]} ∪ seen_chunks,
        formatted_output ++ [format_chunk chunk]).

Definition eliminate_duplicates (final_chunks : list Payload) : list Chunk :=
  snd (fold_left dedup_step final_chunks (∅, [])).

(** The payloads behind [eliminate_duplicates]: those the loop appends,
    before they are stripped down to [content] and [page]. *)
Fixpoint kept_from (seen_chunks : gset Z) (l : list Payload) : list Payload :=
  match l with
  | [] => []
  | chunk :: l' =>
      if decide (chunk_number chunk ∈ seen_chunks) then kept_from seen_chunks l'
      else chunk :: kept_from ({[chunk_number chunk]} ∪ seen_chunks) l'
  end.

Definition kept_chunks (l : list Payload) : list Payload := kept_from ∅ l.

(** The first payload of [l] that carries chunk number [n]. *)
Fixpoint first_with_number (n : Z) (l : list Payload) : option Payload :=
  match l with
  | [] => None
  | chunk :: l' =>
      if decide (chunk_number chunk = n) then Some chunk
      else first_with_number n l'
  end.

(** ** External collaborators *)

(** The embedding provider behind [llm_service.get_embeddings()];
    [embed_query] may raise.  [Vector] stands for the list of floats
    [np.array(...).tolist()] hands to the store. *)
Record Embeddings (Vector : Type) : Type := {
  embed_query : string -> result Vector
}.

(** [get_embeddings] hands out the provider the service holds. *)
Record LLMService (Vector : Type) : Type := {
  get_embeddings : Embeddings Vector
}.

(** The two calls made on a [QdrantClient].  [Store] is the content of
    the point store; a search reads it, a delete replaces it.
    [query_points store collection_name query query_filter limit
    with_payload] is [client.query_points(...).points]; an argument the
    call site leaves out is [None]. *)
Record QdrantClient (Vector Store : Type) : Type := {
  query_points :
    Store -> string -> option Vector -> Filter -> option nat -> bool ->
    result (list ScoredPoint);
  delete : Store -> string -> Filter -> bool -> result Store
}.

(** The attributes of [QdrantIndex] the operations read. *)
Record QdrantIndex (Vector Store : Type) : Type := {
  collection_name : string;
  client : QdrantClient Vector Store
}.

Arguments embed_query {Vector} _ _.
Arguments get_embeddings {Vector} _.
Arguments query_points {Vector Store} _ _ _ _ _ _ _.
Arguments delete {Vector Store} _ _ _ _ _.
Arguments collection_name {Vector Store} _.
Arguments client {Vector Store} _.

(** ** Filters built by the operations *)

Local Open Scope string_scope.
Local Open Scope list_scope.

Definition document_condition (document_id : string) : FieldCondition :=
  {| key := "document_id"; match_ := MatchValue document_id |}.

(** [Filter(must=[FieldCondition(key="document_id", ...)])] *)
Definition document_filter (document_id : string) : Filter :=
  {| must := [document_condition document_id]; should := [] |}.

(** [Filter(must=FieldCondition(key="document_id", ...),
            should=like_conditions)] *)
Definition keyword_filter (document_id : string) (keywords : list string)
  : Filter :=
  {| must := [document_condition document_id];
     should := map (fun keyword =>
                      {| key := "text"; match_ := MatchText keyword |})
                   keywords |}.

(** The string-valued fields of a payload, by key. *)
Definition string_field (p : Payload) (k : string) : option string :=
  if decide (k = "document_id") then Some (document_id p)
  else if decide (k = "text") then Some (text p)
  else None.

(** What a [MatchValue] condition asks of a payload. *)
Definition meets_value (p : Payload) (c : FieldCondition) : Prop :=
  match match_ c with
  | MatchValue v => string_field p (key c) = Some v
  | MatchText _ => True
  end.

(** Truth value of [keywords] in [if keywords:]. *)
Definition truthy (keywords : option (list string)) : bool :=
  match keywords with
  | Some (_ :: _) => true
  | _ => false
  end.

(** [keywords or []] *)
Definition or_empty (keywords : option (list string)) : list string :=
  match keywords with
  | Some ((_ :: _) as kws) => kws
  | _ => []
  end.

(** ** The operations of [QdrantIndex] *)
Section Orchestrator.
Context {Vector Rule Store : Type}.
Variable self : QdrantIndex Vector Store.
(** [self.extract_keywords], inherited from [VectorIndex]. *)
Variable extract_keywords :
  string -> list Rule -> LLMService Vector -> result (option (list string)).
(** [decompose_query(query)["sub-queries"]] of [services.llm]. *)
Variable decompose_query : string -> result (list string).

(** One similarity search (lines 68-86 and 154-172): embed the query,
    ask for the 40 nearest points of the document, take the payloads. *)
Definition similarity_search (store : Store) (embeddings : Embeddings Vector)
    (query document_id : string) : result (list Payload) :=
  let* embedded_query := embed_query embeddings query in
  let* query_response :=
    query_points (client self) store (collection_name self)
      (Some embedded_query) (document_filter document_id) (Some 40%nat) true in
  Ok (map payload query_response).

(** The loop [for query in queries: ... final_chunks.extend(...)]. *)
Fixpoint retrieve (store : Store) (embeddings : Embeddings Vector)
    (queries : list string) (document_id : string)
    (final_chunks : list Payload) : result (list Payload) :=
  match queries with
  | [] => Ok final_chunks
  | query :: queries' =>
      let* query_response :=
        similarity_search store embeddings query document_id in
      retrieve store embeddings queries' document_id
        (final_chunks ++ query_response)%list
  end.

Definition vector_search (store : Store) (queries : list string)
    (document_id : string) (llm_service : LLMService Vector)
  : result VectorResponse :=
  let embeddings := get_embeddings llm_service in
  let* final_chunks := retrieve store embeddings queries document_id [] in
  Ok {| message := "Query processed successfully.";
        chunks := eliminate_duplicates final_chunks |}.

(** Lines 115-152: the keyword phase, yielding [sorted_keyword_chunks]. *)
Definition keyword_phase (store : Store) (keywords : option (list string))
    (document_id : string) : result (list Payload) :=
  if truthy keywords then
    let* keyword_response :=
      query_points (client self) store (collection_name self)
        None (keyword_filter document_id (or_empty keywords)) None true in
    let keyword_response := map payload keyword_response in
    Ok (sorted
          (fun chunk => count_keywords (text chunk) (or_empty keywords))
          keyword_response true)
  else Ok [].

(** Lines 176-182. *)
Definition combine (sorted_keyword_chunks semantic_response : list Payload)
  : list Payload :=
  let combined_chunks :=
    (take 20 sorted_keyword_chunks ++ semantic_response)%list in
  sorted chunk_number combined_chunks false.

(** Everything [hybrid_search] does before the duplicate elimination:
    the list [combined_sorted_chunks]. *)
Definition hybrid_candidates (store : Store) (query document_id : string)
    (rules : list Rule) (llm_service : LLMService Vector)
  : result (list Payload) :=
  let embeddings := get_embeddings llm_service in
  let* keywords := extract_keywords query rules llm_service in
  let* sorted_keyword_chunks := keyword_phase store keywords document_id in
  let* semantic_response :=
    similarity_search store embeddings query document_id in
  Ok (combine sorted_keyword_chunks semantic_response).

Definition hybrid_search (store : Store) (query document_id : string)
    (rules : list Rule) (llm_service : LLMService Vector)
  : result VectorResponse :=
  let* combined_sorted_chunks :=
    hybrid_candidates store query document_id rules llm_service in
  Ok {| message := "Query processed successfully.";
        chunks := eliminate_duplicates combined_sorted_chunks |}.

Definition decomposed_search (store : Store) (query document_id : string)
    (rules : list Rule) (llm_service : LLMService Vector)
  : result DecomposedResponse :=
  let* decomposition_response := decompose_query query in
  let* response :=
    vector_search store decomposition_response document_id llm_service in
  Ok {| sub_queries := decomposition_response;
        sub_query_chunks := chunks response |}.

(** The store after the deletion, and the dictionary returned. *)
Definition delete_document (store : Store) (document_id : string)
  : result (Store * gmap string string) :=
  let* store' :=
    delete (client self) store (collection_name self)
      (document_filter document_id) true in
  Ok (store',
      {[ "status" := "success";
         "message" := "Document deleted successfully." ]}).
End Orchestrator.

(** ** What the operations rely on *)
Section Contracts.
Context {Vector Store : Type}.

(** The point store returns no more points than the limit it is given. *)
Definition honors_limit (c : QdrantClient Vector Store) : Prop :=
  forall store collection query query_filter n with_payload pts,
    query_points c store collection query query_filter (Some n) with_payload
    = Ok pts ->
    (length pts <= n)%nat.

(** The point store returns only points that meet the value
    conditions under [must]. *)
Definition honors_filter (c : QdrantClient Vector Store) : Prop :=
  forall store collection query query_filter limit with_payload pts,
    query_points c store collection query query_filter limit with_payload
    = Ok pts ->
    forall pt cond,
      pt ∈ pts -> cond ∈ must query_filter -> meets_value (payload pt) cond.

Definition belongs_to (document : string) (p : Payload) : Prop :=
  document_id p = document.

(** [responses] are the payload lists the similarity searches of
    [queries] return, query by query. *)
Definition answers (self : QdrantIndex Vector Store) (store : Store)
    (embeddings : Embeddings Vector) (document_id : string)
    (queries : list string) (responses : list (list Payload)) : Prop :=
  Forall2 (fun query response =>
             similarity_search self store embeddings query document_id
             = Ok response)
          queries responses.
End Contracts.

(** ** An in-memory point store

    A test double for the point store: it holds the points of all
    documents and, for every query vector it knows, the ranking a
    similarity search returns.  It applies the filter it is given and
    the limit it is given (10 when none is given). *)
Module Fake.
Record Store : Type := {
  points : list ScoredPoint;
  neighbours : list (string * list ScoredPoint)
}.

Definition condition_holds (p : Payload) (c : FieldCondition) : bool :=
  match string_field p (key c), match_ c with
  | Some s, MatchValue v => bool_decide (s = v)
  | Some s, MatchText t => (0 <? count (lower s) (lower t))%Z
  | None, _ => false
  end.

Definition filter_holds (f : Filter) (p : Payload) : bool :=
  forallb (condition_holds p) (must f)
  && match should f with
     | [] => true
     | _ => existsb (condition_holds p) (should f)
     end.

Fixpoint ranking (v : string) (table : list (string * list ScoredPoint))
  : list ScoredPoint :=
  match table with
  | [] => []
  | (v', pts) :: table' => if decide (v' = v) then pts else ranking v table'
  end.

Definition search (store : Store) (_ : string) (query : option string)
    (query_filter : Filter) (limit : option nat) (_ : bool)
  : result (list ScoredPoint) :=
  let candidates :=
    match query with
    | Some v => ranking v (neighbours store)
    | None => points store
    end in
  Ok (take (default 10%nat limit)
        (List.filter (fun pt => filter_holds query_filter (payload pt))
           candidates)).

Definition remove (store : Store) (_ : string) (selector : Filter) (_ : bool)
  : result Store :=
  let keep := List.filter
                (fun pt => negb (filter_holds selector (payload pt))) in
  Ok {| points := keep (points store);
        neighbours := map (fun '(v, pts) => (v, keep pts)) (neighbours store) |}.

Definition index : QdrantIndex string Store :=
  {| collection_name := "knowledge-table";
     client := {| query_points := search; delete := remove |} |}.

(** A store that cannot be reached: every call raises. *)
Definition unreachable : QdrantIndex string Store :=
  {| collection_name := "knowledge-table";
     client :=
       {| query_points := fun _ _ _ _ _ _ =>
            Raise (Exception "connection refused");
          delete := fun _ _ _ _ =>
            Raise (Exception "connection refused") |} |}.

(** The embedding of a query is the query itself. *)
Definition llm_service : LLMService string :=
  {| get_embeddings := {| embed_query := fun query => Ok query |} |}.

Definition point (document_id : string) (chunk_number page_number : Z)
    (text : string) : ScoredPoint :=
  {| point_id := chunk_number;
     payload := {| document_id := document_id; chunk_number := chunk_number;
                   page_number := page_number; text := text |} |}.
End Fake.

(** ** Scenarios

    Document ["D"] has chunks 1 to 5; document ["E"] shares the store. *)
Module Scenario.
Import Fake.

Definition c1 := point "D" 1 1 "foo, Foo and foo".
Definition c2 := point "D" 2 1 "only one foo".
Definition c3 := point "D" 3 2 "three".
Definition c4 := point "D" 4 2 "four".
Definition c5 := point "D" 5 3 "five".
Definition e2 := point "E" 2 7 "foo of another document".
(** What the similarity ranking holds for chunk 2: same number, an
    older text. *)
Definition c2_semantic := point "D" 2 1 "only one foo (semantic copy)".

Definition store : Store :=
  {| points := [e2; c2; c1; c3; c4; c5];
     neighbours :=
       [("q1", [c3; e2; c1]); ("q2", [c1; c5]);
        ("sub-a", [c3; c1]); ("sub-b", [c1; c5]);
        ("where is foo", [c4; e2; c2_semantic])] |}.

Definition extract_keywords (query : string) (_ : list unit)
    (_ : LLMService string) : result (option (list string)) :=
  if decide (query = "where is foo") then Ok (Some ["foo"])
  else Ok (Some []).

Definition decompose_query (query : string) : result (list string) :=
  if decide (query = "complex query") then Ok ["sub-a"; "sub-b"]
  else Ok [].

Definition processed (l : list ScoredPoint) : VectorResponse :=
  {| message := "Query processed successfully.";
     chunks := format_chunk <$> (payload <$> l) |}.

(** The store once document ["D"] is deleted. *)
Definition after_delete : Store :=
  {| points := [e2];
     neighbours :=
       [("q1", [e2]); ("q2", []); ("sub-a", []); ("sub-b", []);
        ("where is foo", [e2])] |}.

(** Two chunks whose scores for the keyword ["ana"] tie under [count]
    and differ under [occurrences]. *)
Definition ana := point "F" 1 1 "ana".
Definition banana := point "F" 2 1 "Banana".
Definition fruit : Store :=
  {| points := [ana; banana]; neighbours := [] |}.
End Scenario.

(** ** Ingestion: [upsert_vectors]

    [prepare_chunks] (inherited from [VectorIndex]) returns a list of
    dictionaries.  A dictionary is an object: [entry.pop(...)] changes
    it in place, and one object may be listed more than once.  So the
    list is a list of references, and [objects] maps a reference to the
    content of its dictionary (the empty dictionary where nothing is
    recorded).  [V] stands for the values held ([Any]), [P] for
    [models.PointStruct]. *)

Definition KeyError (k : string) : exn :=
  Exception ("KeyError: '" +:+ k +:+ "'").

(** The remaining calls made on a [QdrantClient]. *)
Record QdrantWrites (P Store : Type) : Type := {
  upsert : Store -> string -> list P -> bool -> result Store
}.

Arguments upsert {P Store} _ _ _ _ _.

Section Ingestion.
Context {V P Document Vector Store : Type}.
Variable self : QdrantIndex Vector Store.
Variable writes : QdrantWrites P Store.
(** [models.PointStruct(id=..., vector=..., payload=...)]; the
    constructor validates its arguments and may raise. *)
Variable point_struct : V -> V -> gmap string V -> result P.
(** [self.prepare_chunks(document_id, chunks, llm_service)]: the
    dictionaries created and the list of entries. *)
Variable prepare_chunks :
  string -> list Document -> LLMService Vector ->
  result (gmap nat (gmap string V) * list nat).

(** [entry.pop(k)] *)
Definition pop (objects : gmap nat (gmap string V)) (entry : nat) (k : string)
  : result (V * gmap nat (gmap string V)) :=
  match (objects !!! entry) !! k with
  | Some v => Ok (v, <[entry := base.delete k (objects !!! entry)]> objects)
  | None => Raise (KeyError k)
  end.

(** [models.PointStruct(id=entry.pop("id"), vector=entry.pop("vector"),
    payload=entry)]: the arguments are evaluated from left to right. *)
Definition point_of_entry (objects : gmap nat (gmap string V)) (entry : nat)
  : result (P * gmap nat (gmap string V)) :=
  let* popped_id := pop objects entry "id" in
  let* popped_vector := pop (snd popped_id) entry "vector" in
  let* point :=
    point_struct (fst popped_id) (fst popped_vector)
      (snd popped_vector !!! entry) in
  Ok (point, snd popped_vector).

(** The list comprehension [[... for entry in entries]]. *)
Fixpoint points_of_entries (objects : gmap nat (gmap string V))
    (entries : list nat) : result (list P * gmap nat (gmap string V)) :=
  match entries with
  | [] => Ok ([], objects)
  | entry :: entries' =>
      let* first := point_of_entry objects entry in
      let* rest := points_of_entries (snd first) entries' in
      Ok (fst first :: fst rest, snd rest)
  end.

Definition upsert_vectors (store : Store) (document_id : string)
    (chunks : list Document) (llm_service : LLMService Vector)
  : result (Store * gmap string string) :=
  let* prepared := prepare_chunks document_id chunks llm_service in
  let entries := snd prepared in
  let* built := points_of_entries (fst prepared) entries in
  let points := fst built in
  let* store' := upsert writes store (collection_name self) points true in
  Ok (store',
      {[ "message" :=
           "Successfully upserted " +:+ pretty (length entries)
           +:+ " chunks." ]}).

(** What is left of the dictionary [entry] once [id] and [vector] are
    popped. *)
Definition stripped (objects : gmap nat (gmap string V)) (entry : nat)
  : gmap string V :=
  base.delete "vector" (base.delete "id" (objects !!! entry)).

(** The entry holds an [id] and a [vector], and [point] is the point
    made of them and of the rest of the entry. *)
Definition made_from (objects : gmap nat (gmap string V)) (entry : nat)
    (point : P) : Prop :=
  exists id vector,
    (objects !!! entry) !! "id" = Some id
    /\ (objects !!! entry) !! "vector" = Some vector
    /\ point_struct id vector (stripped objects entry) = Ok point.

(** The dictionaries once the points of [entries] are made. *)
Definition popped (objects objects' : gmap nat (gmap string V))
    (entries : list nat) : Prop :=
  forall r, objects' !!! r
            = if decide (r ∈ entries) then stripped objects r
              else objects !!! r.
End Ingestion.

(** ** A test double for ingestion *)
Module Ingest.
(** A store that keeps the points it is sent, as triples; values are
    written as strings. *)
Definition writes : QdrantWrites (string * string * gmap string string)
                      (list (string * string * gmap string string)) :=
  {| upsert := fun store _ points _ => Ok (store ++ points) |}.

(** The index on that store; searching it is of no concern here. *)
Definition index
  : QdrantIndex string (list (string * string * gmap string string)) :=
  {| collection_name := "knowledge-table";
     client := {| query_points := fun _ _ _ _ _ _ => Ok [];
                  delete := fun _ _ _ _ => Ok [] |} |}.

Definition point_struct (id vector : string) (payload : gmap string string)
  : result (string * string * gmap string string) :=
  Ok (id, vector, payload).

Definition payload_of (chunk content : string) : gmap string string :=
  {[ "document_id" := "D"; "chunk_number" := chunk;
     "page_number" := "1"; "text" := content ]}.

Definition entry (id chunk content : string) : gmap string string :=
  <["id" := id]> (<["vector" := "[1.0, 0.0]"]> (payload_of chunk content)).

Definition objects : gmap nat (gmap string string) :=
  {[ 0%nat := entry "10" "1" "one"; 1%nat := entry "11" "2" "two";
     2%nat := base.delete "vector" (entry "12" "3" "three") ]}.

(** Documents ["good"], ["twice"] and ["bad"] are prepared as two
    entries; as an entry listed twice; as an entry followed by one
    without a vector. *)
Definition prepare_chunks (document_id : string) (_ : list unit)
    (_ : LLMService string)
  : result (gmap nat (gmap string string) * list nat) :=
  if decide (document_id = "good") then Ok (objects, [0; 1]%nat)
  else if decide (document_id = "twice") then Ok (objects, [0; 0]%nat)
  else Ok (objects, [0; 2]%nat).
End Ingest.

(** ** Further scenarios *)
Module Outage.
(** An embedding provider that fails on the query ["bad"]. *)
Definition llm_service : LLMService string :=
  {| get_embeddings :=
       {| embed_query := fun query =>
            if decide (query = "bad")
            then Raise (Exception "embedding failed")
            else Ok query |} |}.
End Outage.


(** * Properties *)

(** ** The error monad *)

Lemma bind_Ok {A B : Type} (m : result A) (k : A -> result B) (b : B) :
  bind m k = Ok b -> exists a, m = Ok a /\ k a = Ok b.
Proof. destruct m as [a|e]; simpl; [eauto | discriminate]. Qed.

Ltac inv_bind H :=
  let a := fresh "a" in
  let Ha := fresh "H" a in
  apply bind_Ok in H; destruct H as (a & Ha & H).

(** ** [sorted] is a stable sort *)
Section SortedFacts.
Context {A : Type} (k : A -> Z).

Lemma goes_before_spec reverse x y :
  goes_before k reverse x y = true <-> in_order k reverse x y.
Proof. unfold goes_before, in_order. destruct reverse; apply Z.leb_le. Qed.

Lemma goes_before_false reverse x y :
  goes_before k reverse x y = false ->
  in_order k reverse y x /\ k x <> k y.
Proof.
  unfold goes_before, in_order.
  destruct reverse; intros H%Z.leb_gt; lia.
Qed.

Lemma in_order_trans reverse x y z :
  in_order k reverse x y -> in_order k reverse y z -> in_order k reverse x z.
Proof. unfold in_order. destruct reverse; lia. Qed.

Lemma insort_perm reverse x l : insort k reverse x l ≡ₚ x :: l.
Proof.
  induction l as [|y l IH]; simpl; [done|].
  destruct (goes_before k reverse x y); [done|].
  rewrite IH. apply Permutation_swap.
Qed.

Lemma sorted_perm reverse l : sorted k l reverse ≡ₚ l.
Proof.
  induction l as [|x l IH]; simpl; [done|].
  unfold sorted in *. simpl. by rewrite insort_perm, IH.
Qed.

Lemma insort_ordered reverse x l :
  StronglySorted (in_order k reverse) l ->
  StronglySorted (in_order k reverse) (insort k reverse x l).
Proof.
  induction 1 as [|y l Hl IH Hy]; simpl.
  - repeat constructor.
  - destruct (goes_before k reverse x y) eqn:E.
    + apply goes_before_spec in E.
      constructor; [by constructor|].
      constructor; [done|].
      eapply Forall_impl; [exact Hy|].
      intros z Hz. by eapply in_order_trans.
    + apply goes_before_false in E as [E _].
      constructor; [done|].
      rewrite insort_perm. by constructor.
Qed.

Lemma sorted_ordered reverse l :
  StronglySorted (in_order k reverse) (sorted k l reverse).
Proof.
  induction l as [|x l IH]; simpl; [constructor|].
  by apply insort_ordered.
Qed.

(** Stability: the elements with a given key come out in the order
    they went in. *)
Lemma insort_stable reverse (n : Z) x l :
  filter (fun y => k y = n) (insort k reverse x l)
  = filter (fun y => k y = n) (x :: l).
Proof.
  induction l as [|y l IH]; simpl; [done|].
  destruct (goes_before k reverse x y) eqn:E; [done|].
  apply goes_before_false in E as [_ E].
  rewrite filter_cons, IH, !filter_cons.
  repeat case_decide; congruence.
Qed.

Lemma sorted_stable reverse (n : Z) l :
  filter (fun y => k y = n) (sorted k l reverse)
  = filter (fun y => k y = n) l.
Proof.
  induction l as [|x l IH]; simpl; [done|].
  unfold sorted in *; simpl.
  rewrite insort_stable, !filter_cons, IH. done.
Qed.

Lemma sorted_length reverse l : length (sorted k l reverse) = length l.
Proof. by rewrite sorted_perm. Qed.

Lemma sorted_elem_of reverse l x : x ∈ sorted k l reverse <-> x ∈ l.
Proof. by rewrite sorted_perm. Qed.
End SortedFacts.

(** ** The duplicate elimination keeps first occurrences *)

Lemma fold_dedup_step l seen_chunks formatted_output :
  snd (fold_left dedup_step l (seen_chunks, formatted_output))
  = formatted_output ++ (format_chunk <$> kept_from seen_chunks l).
Proof.
  revert seen_chunks formatted_output.
  induction l as [|chunk l IH]; intros seen out; simpl.
  - by rewrite app_nil_r.
  - case_decide; [apply IH|].
    rewrite IH, <- app_assoc. done.
Qed.

Lemma eliminate_duplicates_kept l :
  eliminate_duplicates l = format_chunk <$> kept_chunks l.
Proof. unfold eliminate_duplicates. by rewrite fold_dedup_step. Qed.

Lemma kept_from_sublist seen l : kept_from seen l `sublist_of` l.
Proof.
  revert seen. induction l as [|chunk l IH]; intros seen; simpl; [done|].
  case_decide; [by apply sublist_cons | by apply sublist_skip].
Qed.

Lemma kept_from_unseen seen l p :
  p ∈ kept_from seen l -> chunk_number p ∉ seen.
Proof.
  revert seen. induction l as [|chunk l IH]; intros seen; simpl.
  - by intros ?%elem_of_nil.
  - case_decide; [apply IH|].
    intros [->|Hp%IH]%elem_of_cons; [done | set_solver].
Qed.

Lemma kept_from_NoDup seen l : NoDup (chunk_number <$> kept_from seen l).
Proof.
  revert seen. induction l as [|chunk l IH]; intros seen; simpl.
  - constructor.
  - case_decide; [apply IH|].
    rewrite fmap_cons. constructor; [|apply IH].
    intros (p & Hn & Hp%kept_from_unseen)%list_elem_of_fmap.
    set_solver.
Qed.

Lemma first_with_number_kept_from n seen l :
  first_with_number n (kept_from seen l)
  = if decide (n ∈ seen) then None else first_with_number n l.
Proof.
  revert seen. induction l as [|chunk l IH]; intros seen; simpl.
  - by case_decide.
  - destruct (decide (chunk_number chunk ∈ seen)) as [Hin|Hin]; simpl;
      rewrite IH;
      repeat (match goal with
              | |- context [decide ?P] => destruct (decide P)
              end; simpl);
      try done; set_solver.
Qed.

Lemma first_with_number_head n l :
  first_with_number n l = head (filter (fun p => chunk_number p = n) l).
Proof.
  induction l as [|chunk l IH]; simpl; [done|].
  rewrite filter_cons. by case_decide.
Qed.

Lemma first_with_number_Some n l p :
  first_with_number n l = Some p -> p ∈ l /\ chunk_number p = n.
Proof.
  induction l as [|chunk l IH]; simpl; [done|].
  case_decide.
  - intros [= ->]. split; [left | done].
  - intros [??]%IH. split; [by right | done].
Qed.

Lemma first_with_number_None n l :
  first_with_number n l = None <-> n ∉ chunk_number <$> l.
Proof.
  induction l as [|chunk l IH]; simpl.
  - split; [intros _ ?%elem_of_nil; done | done].
  - rewrite not_elem_of_cons. case_decide; [|rewrite IH]; naive_solver.
Qed.

Lemma first_with_number_app n l1 l2 :
  first_with_number n (l1 ++ l2)
  = match first_with_number n l1 with
    | Some p => Some p
    | None => first_with_number n l2
    end.
Proof.
  induction l1 as [|chunk l1 IH]; simpl; [done|]. by case_decide.
Qed.

(** The three facts that pin [kept_chunks l] down: it is [l] with
    elements removed, no chunk number is repeated, and every chunk
    number of [l] is represented by its first carrier in [l]. *)
Lemma kept_chunks_sublist l : kept_chunks l `sublist_of` l.
Proof. apply kept_from_sublist. Qed.

Lemma kept_chunks_NoDup l : NoDup (chunk_number <$> kept_chunks l).
Proof. apply kept_from_NoDup. Qed.

Lemma kept_chunks_first n l :
  first_with_number n (kept_chunks l) = first_with_number n l.
Proof.
  unfold kept_chunks. rewrite first_with_number_kept_from.
  case_decide; [set_solver | done].
Qed.

(** ** Sorting by chunk number, then eliminating duplicates *)

Lemma first_with_number_sorted n l :
  first_with_number n (sorted chunk_number l false) = first_with_number n l.
Proof. by rewrite !first_with_number_head, sorted_stable. Qed.

Lemma kept_from_ascending seen l :
  StronglySorted (in_order chunk_number false) l ->
  StronglySorted Z.lt (chunk_number <$> kept_from seen l).
Proof.
  intros Hl. revert seen.
  induction Hl as [|chunk l Hl IH Hchunk]; intros seen; simpl.
  - constructor.
  - case_decide; [apply IH|].
    rewrite fmap_cons. constructor; [apply IH|].
    apply Forall_fmap, Forall_forall. intros p Hp. simpl.
    assert (chunk_number p ∉ ({[chunk_number chunk]} ∪ seen : gset Z))
      by (by eapply kept_from_unseen).
    assert (p ∈ l) by (eapply elem_of_sublist; [done | apply kept_from_sublist]).
    rewrite Forall_forall in Hchunk. specialize (Hchunk p).
    unfold in_order in Hchunk.
    assert (chunk_number p <> chunk_number chunk) by set_solver.
    naive_solver lia.
Qed.

Lemma strictly_ascending_le (l : list Z) :
  StronglySorted Z.lt l -> StronglySorted Z.le l.
Proof.
  induction 1 as [|x l Hl IH Hx]; constructor; [done|].
  eapply Forall_impl; [exact Hx|]. intros y Hy. simpl in *. lia.
Qed.

Lemma ascending_NoDup l :
  StronglySorted (in_order chunk_number false) l ->
  NoDup (chunk_number <$> l) ->
  StronglySorted Z.lt (chunk_number <$> l).
Proof.
  induction 1 as [|chunk l Hl IH Hchunk]; simpl; [constructor|].
  intros [Hnotin Hnd]%NoDup_cons. constructor; [by apply IH|].
  apply Forall_fmap, Forall_forall. intros p Hp. simpl.
  rewrite Forall_forall in Hchunk. specialize (Hchunk p Hp).
  unfold in_order in Hchunk.
  assert (chunk_number p <> chunk_number chunk).
  { intros E. apply Hnotin. rewrite <- E. by apply list_elem_of_fmap_2. }
  lia.
Qed.

Lemma ascending_head_first chunk l :
  StronglySorted Z.lt (chunk_number <$> chunk :: l) ->
  first_with_number (chunk_number chunk) l = None.
Proof.
  rewrite fmap_cons. intros [_ Hall]%StronglySorted_inv.
  apply first_with_number_None. intros Hin.
  rewrite Forall_forall in Hall. specialize (Hall _ Hin). lia.
Qed.

Lemma first_with_number_NoDup l p :
  NoDup (chunk_number <$> l) -> p ∈ l ->
  first_with_number (chunk_number p) l = Some p.
Proof.
  induction l as [|chunk l IH]; simpl; [by intros _ ?%elem_of_nil|].
  intros [Hnotin Hnd]%NoDup_cons [->|Hp]%elem_of_cons.
  - by rewrite decide_True.
  - rewrite decide_False; [by apply IH|].
    intros E. apply Hnotin. rewrite E. by apply list_elem_of_fmap_2.
Qed.

(** A list in strictly ascending chunk-number order is determined by
    the payload it holds for each chunk number. *)
Lemma ascending_unique l1 l2 :
  StronglySorted Z.lt (chunk_number <$> l1) ->
  StronglySorted Z.lt (chunk_number <$> l2) ->
  (forall n, first_with_number n l1 = first_with_number n l2) ->
  l1 = l2.
Proof.
  revert l2. induction l1 as [|a l1 IH]; intros [|b l2] H1 H2 Hfirst.
  - done.
  - specialize (Hfirst (chunk_number b)). simpl in Hfirst.
    by rewrite decide_True in Hfirst.
  - specialize (Hfirst (chunk_number a)). simpl in Hfirst.
    by rewrite decide_True in Hfirst.
  - assert (Ha := ascending_head_first _ _ H1).
    assert (Hb := ascending_head_first _ _ H2).
    assert (a = b) as <-.
    { pose proof (Hfirst (chunk_number a)) as Fa.
      pose proof (Hfirst (chunk_number b)) as Fb.
      simpl in Fa, Fb.
      rewrite decide_True in Fa by done.
      rewrite (decide_True (P := chunk_number b = chunk_number b)) in Fb by done.
      destruct (decide (chunk_number b = chunk_number a)) as [E|NE];
        [congruence|].
      rewrite decide_False in Fb by congruence.
      symmetry in Fa.
      apply first_with_number_Some in Fa as [Fa _].
      apply first_with_number_Some in Fb as [Fb _].
      rewrite !fmap_cons in H1, H2.
      apply StronglySorted_inv in H1 as [_ H1], H2 as [_ H2].
      rewrite Forall_fmap, Forall_forall in H1, H2.
      specialize (H1 _ Fb). specialize (H2 _ Fa). simpl in *. lia. }
    f_equal. apply IH.
    + rewrite fmap_cons in H1. by apply StronglySorted_inv in H1 as [? _].
    + rewrite fmap_cons in H2. by apply StronglySorted_inv in H2 as [? _].
    + intros n. specialize (Hfirst n). simpl in Hfirst.
      destruct (decide (chunk_number a = n)) as [<-|]; [congruence | done].
Qed.

(** Eliminating duplicates after the stable sort gives the same list as
    sorting after eliminating duplicates. *)
Lemma kept_chunks_sorted l :
  kept_chunks (sorted chunk_number l false)
  = sorted chunk_number (kept_chunks l) false.
Proof.
  apply ascending_unique.
  - apply kept_from_ascending, sorted_ordered.
  - apply ascending_NoDup; [apply sorted_ordered|].
    rewrite sorted_perm. apply kept_chunks_NoDup.
  - intros n.
    by rewrite kept_chunks_first, !first_with_number_sorted, kept_chunks_first.
Qed.

(** ** [str.count] counts non-overlapping occurrences *)
Section Count.
Variable sub : string.

Lemma count_from_nonneg s skip : (0 <= count_from sub s skip)%Z.
Proof.
  revert skip. induction s as [|c s IH]; intros [|k]; cbn [count_from].
  - destruct (String.prefix sub ""); lia.
  - lia.
  - destruct (String.prefix sub (String c s)); [|apply IH].
    pose proof (IH (String.length sub - 1)%nat). lia.
  - apply IH.
Qed.

(** Waiting longer before the scan resumes never finds more, and
    resuming up to one keyword length later loses at most one match. *)
Lemma count_from_greedy s i j :
  ((i <= j)%nat -> (count_from sub s j <= count_from sub s i)%Z)
  /\ ((j <= i + (String.length sub - 1) + 1)%nat ->
      (count_from sub s i <= 1 + count_from sub s j)%Z).
Proof.
  revert i j. induction s as [|c s IH]; intros i j.
  - destruct i, j; cbn [count_from]; destruct (String.prefix sub "");
      split; lia.
  - pose (w := (String.length sub - 1)%nat).
    destruct i as [|i], j as [|j]; cbn [count_from];
      destruct (String.prefix sub (String c s));
      pose proof (IH 0%nat 0%nat); pose proof (IH 0%nat w);
      pose proof (IH w 0%nat); pose proof (IH w w);
      try (pose proof (IH 0%nat i); pose proof (IH i 0%nat);
           pose proof (IH i w); pose proof (IH w i));
      try (pose proof (IH 0%nat j); pose proof (IH j 0%nat);
           pose proof (IH j w); pose proof (IH w j));
      try (pose proof (IH i j); pose proof (IH j i));
      subst w; split; lia.
Qed.

Lemma packed_shift c s k ps :
  packed sub (String c s) (S k) (S <$> ps) <-> packed sub s k ps.
Proof.
  unfold packed, non_overlapping, occurs_at.
  rewrite !Forall_fmap. split.
  - intros (Hlo & Hocc & Hsorted). split_and!.
    + eapply Forall_impl; [exact Hlo|]. simpl. lia.
    + eapply Forall_impl; [exact Hocc|]. simpl. intros p [??]. split; [lia|done].
    + clear Hlo Hocc. induction ps as [|p ps IHps]; [constructor|].
      rewrite fmap_cons in Hsorted.
      apply StronglySorted_inv in Hsorted as [Hs Hp].
      constructor; [by apply IHps|].
      rewrite Forall_fmap in Hp.
      eapply Forall_impl; [exact Hp|]. unfold apart. simpl. lia.
  - intros (Hlo & Hocc & Hsorted). split_and!.
    + eapply Forall_impl; [exact Hlo|]. simpl. lia.
    + eapply Forall_impl; [exact Hocc|]. simpl. intros p [??]. split; [lia|done].
    + eapply StronglySorted_fmap; [|exact Hsorted]. unfold apart. lia.
Qed.

Lemma above_one_shifted (ps : list nat) :
  Forall (fun p => (1 <= p)%nat) ps -> ps = S <$> (Nat.pred <$> ps).
Proof.
  induction 1 as [|p ps Hp _ IH]; [done|].
  rewrite !fmap_cons, <- IH. f_equal. lia.
Qed.

Lemma packed_unshift c s k ps :
  packed sub (String c s) (S k) ps -> packed sub s k (Nat.pred <$> ps).
Proof.
  intros Hps. apply (packed_shift c).
  rewrite <- above_one_shifted; [done|].
  destruct Hps as [Hlo _]. eapply Forall_impl; [exact Hlo|]. simpl. lia.
Qed.

Lemma packed_count_from s lo ps :
  packed sub s lo ps -> (Z.of_nat (length ps) <= count_from sub s lo)%Z.
Proof.
  revert lo ps. induction s as [|c s IH]; intros lo ps Hps.
  - destruct Hps as (Hlo & Hocc & Hsorted).
    destruct ps as [|p [|q ps]].
    + apply count_from_nonneg.
    + apply Forall_inv in Hlo, Hocc. destruct Hocc as [Hp Hpre].
      simpl in Hp. assert (p = 0%nat) as -> by lia.
      assert (lo = 0%nat) as -> by lia.
      cbn [count_from string_drop] in *. by rewrite Hpre.
    + apply StronglySorted_inv in Hsorted as [_ Hq%Forall_inv].
      apply Forall_inv_tail, Forall_inv in Hocc. destruct Hocc as [Hq' _].
      unfold apart in Hq. simpl in Hq'. lia.
  - destruct lo as [|k].
    + destruct ps as [|[|p] rest].
      * apply count_from_nonneg.
      * destruct Hps as (Hlo & Hocc & Hsorted).
        pose proof (Forall_inv Hocc) as [_ Hpre]. cbn [string_drop] in Hpre.
        apply StronglySorted_inv in Hsorted as [Hsorted Hrest].
        assert (packed sub (String c s) (S (String.length sub - 1)) rest) as Hr.
        { split; [|split; [by eapply Forall_inv_tail | done]].
          eapply Forall_impl; [exact Hrest|]. unfold apart. simpl. lia. }
        apply packed_unshift, IH in Hr. rewrite length_fmap in Hr.
        cbn [count_from]. rewrite Hpre. simpl length. lia.
      * assert (packed sub (String c s) 1 (S p :: rest)) as Hr.
        { destruct Hps as (Hlo & Hocc & Hsorted). split; [|done].
          constructor; [lia|].
          apply StronglySorted_inv in Hsorted as [_ Hrest].
          eapply Forall_impl; [exact Hrest|]. unfold apart. simpl. lia. }
        apply packed_unshift, IH in Hr. rewrite length_fmap in Hr.
        cbn [count_from]. destruct (String.prefix sub (String c s)); [|done].
        pose proof (count_from_greedy s 0 (String.length sub - 1)). lia.
    + apply packed_unshift, IH in Hps. by rewrite length_fmap in Hps.
Qed.

Lemma count_from_packed s lo :
  exists ps, packed sub s lo ps /\ Z.of_nat (length ps) = count_from sub s lo.
Proof.
  revert lo. induction s as [|c s IH]; intros lo.
  - destruct lo as [|k]; cbn [count_from].
    + destruct (String.prefix sub "") eqn:Hpre.
      * exists [0%nat]. split; [|done].
        split; [by constructor|]. split; [|by repeat constructor].
        constructor; [|constructor]. split; [simpl; lia | done].
      * exists []. by repeat constructor.
    + exists []. by repeat constructor.
  - destruct lo as [|k]; cbn [count_from].
    + destruct (String.prefix sub (String c s)) eqn:Hpre.
      * destruct (IH (String.length sub - 1)%nat) as (ps & Hps & Hlen).
        exists (0%nat :: (S <$> ps)). split; [|simpl; rewrite length_fmap; lia].
        pose proof (proj2 (packed_shift c s _ ps) Hps) as (Hlo & Hocc & Hsorted).
        split; [constructor; [lia|]|split].
        -- eapply Forall_impl; [exact Hlo|]. simpl. lia.
        -- constructor; [|done]. split; [simpl; lia | done].
        -- constructor; [done|].
           eapply Forall_impl; [exact Hlo|]. unfold apart. simpl. lia.
      * destruct (IH 0%nat) as (ps & Hps & Hlen).
        exists (S <$> ps). split; [|by rewrite length_fmap].
        pose proof (proj2 (packed_shift c s _ ps) Hps) as (Hlo & Hocc & Hsorted).
        split; [|done]. eapply Forall_impl; [exact Hlo|]. simpl. lia.
    + destruct (IH k) as (ps & Hps & Hlen).
      exists (S <$> ps). split; [by apply packed_shift | by rewrite length_fmap].
Qed.

(** [s.count(sub)] is the largest number of occurrences of [sub] in
    [s] that can be chosen without two of them overlapping. *)
Lemma count_is_max_non_overlapping s :
  (exists ps, non_overlapping sub s ps /\ Z.of_nat (length ps) = count s sub)
  /\ (forall ps, non_overlapping sub s ps ->
                (Z.of_nat (length ps) <= count s sub)%Z).
Proof.
  unfold count. split.
  - destruct (count_from_packed s 0) as (ps & [_ Hps] & Hlen). eauto.
  - intros ps Hps. apply packed_count_from. split; [|done].
    apply Forall_forall. intros; lia.
Qed.

Lemma count_from_le_occurrences s skip :
  (count_from sub s skip <= occurrences sub s)%Z.
Proof.
  revert skip.
  induction s as [|c s IH]; intros [|k]; cbn [count_from occurrences].
  - destruct (String.prefix sub ""); lia.
  - destruct (String.prefix sub ""); lia.
  - pose proof (IH 0%nat). pose proof (IH (String.length sub - 1)%nat).
    destruct (String.prefix sub (String c s)); lia.
  - pose proof (IH k). pose proof (count_from_nonneg s k).
    destruct (String.prefix sub (String c s)); lia.
Qed.
End Count.

Lemma count_keywords_sum text keywords :
  count_keywords text keywords
  = foldr (fun keyword total => (count (lower text) (lower keyword) + total)%Z)
      0%Z keywords.
Proof.
  unfold count_keywords.
  assert (forall l acc,
             fold_left Z.add l acc = (acc + foldr Z.add 0 l)%Z) as Hfold.
  { induction l as [|x l IH]; intros acc; simpl; [lia|]. rewrite IH. lia. }
  rewrite Hfold, Z.add_0_l.
  induction keywords as [|kw kws IH]; simpl; [done|]. by rewrite IH.
Qed.

Lemma count_keywords_le_occurrence_score text keywords :
  (count_keywords text keywords <= occurrence_score text keywords)%Z.
Proof.
  rewrite count_keywords_sum. unfold occurrence_score.
  induction keywords as [|kw kws IH]; cbn [foldr]; [done|].
  pose proof (count_from_le_occurrences (lower kw) (lower text) 0).
  unfold count in *. lia.
Qed.

(** ** When overlaps cannot happen, [count] counts every occurrence *)

Lemma prefix_cons a x b s :
  String.prefix (String a x) (String b s) = true
  <-> a = b /\ String.prefix x s = true.
Proof.
  cbn [String.prefix]. destruct (ascii_dec a b); naive_solver.
Qed.

Lemma prefix_refl x : String.prefix x x = true.
Proof. induction x as [|a x IH]; [done|]. by apply prefix_cons. Qed.

(** Of two beginnings of one string, the shorter begins the longer. *)
Lemma prefix_of_prefixes x y s :
  String.prefix x s = true -> String.prefix y s = true ->
  (String.length x <= String.length y)%nat ->
  String.prefix x y = true.
Proof.
  revert x y. induction s as [|c s IH]; intros [|a x] [|b y]; try done.
  - cbn [String.length]. lia.
  - intros [-> Hx]%prefix_cons [-> Hy]%prefix_cons Hlen.
    cbn [String.length] in Hlen.
    apply prefix_cons. split; [done|]. apply IH; [done..|lia].
Qed.

Lemma prefix_overlap j x y s :
  String.prefix x s = true ->
  String.prefix y (string_drop j s) = true ->
  (j <= String.length x)%nat ->
  (String.length x <= j + String.length y)%nat ->
  String.prefix (string_drop j x) y = true.
Proof.
  revert x s. induction j as [|j IH]; intros x s Hx Hy Hj Hlen.
  - cbn [string_drop] in *. by eapply prefix_of_prefixes.
  - destruct x as [|a x]; [cbn [String.length] in Hj; lia|].
    destruct s as [|b s]; [done|].
    apply prefix_cons in Hx as [-> Hx].
    cbn [string_drop String.length] in *.
    apply (IH x s); [done..|lia|lia].
Qed.

Lemma count_from_occurrences sub s skip :
  ~ self_overlapping sub ->
  (forall i, (i < skip)%nat -> String.prefix sub (string_drop i s) = false) ->
  count_from sub s skip = occurrences sub s.
Proof.
  intros Hsub. revert skip.
  induction s as [|c s IH]; intros [|k] Hclear;
    cbn [count_from occurrences].
  - destruct (String.prefix sub ""); lia.
  - pose proof (Hclear 0%nat ltac:(lia)) as H0. cbn [string_drop] in H0.
    by rewrite H0.
  - destruct (String.prefix sub (String c s)) eqn:Hpre.
    + rewrite IH; [done|]. intros i Hi.
      destruct (String.prefix sub (string_drop i s)) eqn:Hat; [|done].
      exfalso. apply Hsub. exists (S i). split; [lia|].
      apply (prefix_overlap (S i) sub sub (String c s)); [done|done|lia|lia].
    + rewrite IH; [done|]. intros; lia.
  - pose proof (Hclear 0%nat ltac:(lia)) as H0. cbn [string_drop] in H0.
    rewrite H0, IH; [done|]. intros i Hi. apply (Hclear (S i)). lia.
Qed.

(** For keywords none of which can overlap itself, the score is the
    number of occurrences. *)
Lemma count_keywords_occurrence_score text keywords :
  Forall (fun keyword => ~ self_overlapping (lower keyword)) keywords ->
  count_keywords text keywords = occurrence_score text keywords.
Proof.
  rewrite count_keywords_sum. unfold occurrence_score.
  induction 1 as [|kw kws Hkw _ IH]; cbn [foldr]; [done|].
  rewrite IH. unfold count.
  rewrite (count_from_occurrences _ _ 0 Hkw); [done|]. intros; lia.
Qed.

(** ** Runs of the operations *)
Section Runs.
Context {Vector Rule Store : Type}.
Variable self : QdrantIndex Vector Store.
Variable extract_keywords :
  string -> list Rule -> LLMService Vector -> result (option (list string)).

Lemma retrieve_Ok store embeddings queries document_id acc final_chunks :
  retrieve self store embeddings queries document_id acc = Ok final_chunks
  <-> exists responses,
        answers self store embeddings document_id queries responses
        /\ final_chunks = acc ++ concat responses.
Proof.
  revert acc. induction queries as [|query queries IH]; intros acc; simpl.
  - split.
    + intros [= <-]. exists []. split; [constructor | by rewrite app_nil_r].
    + intros (responses & Hall & ->). inversion Hall; subst.
      simpl. by rewrite app_nil_r.
  - split.
    + intros H. inv_bind H. apply IH in H as (responses & Hall & ->).
      exists (a :: responses). split; [by constructor|].
      simpl. by rewrite <- app_assoc.
    + intros (responses & Hall & ->).
      inversion Hall as [|? response ? responses' Hq Hrest]; subst.
      rewrite Hq. simpl. apply IH. exists responses'.
      split; [done | by rewrite <- app_assoc].
Qed.

Lemma vector_search_Ok store queries document_id llm_service response :
  vector_search self store queries document_id llm_service = Ok response
  <-> exists final_chunks,
        retrieve self store (get_embeddings llm_service) queries
          document_id [] = Ok final_chunks
        /\ response = {| message := "Query processed successfully.";
                         chunks := format_chunk <$> kept_chunks final_chunks |}.
Proof.
  unfold vector_search. split.
  - intros H. inv_bind H. injection H as <-.
    exists a. by rewrite eliminate_duplicates_kept.
  - intros (final_chunks & -> & ->). simpl.
    by rewrite eliminate_duplicates_kept.
Qed.

Lemma hybrid_candidates_Ok store query document_id rules llm_service cands :
  hybrid_candidates self extract_keywords store query document_id rules
    llm_service = Ok cands
  <-> exists keywords sorted_keyword_chunks semantic_response,
        extract_keywords query rules llm_service = Ok keywords
        /\ keyword_phase self store keywords document_id
           = Ok sorted_keyword_chunks
        /\ similarity_search self store (get_embeddings llm_service)
             query document_id = Ok semantic_response
        /\ cands = combine sorted_keyword_chunks semantic_response.
Proof.
  unfold hybrid_candidates. split.
  - intros H. inv_bind H. inv_bind H. inv_bind H. injection H as <-.
    naive_solver.
  - intros (keywords & kw & sem & -> & Hkw & Hsem & ->). simpl.
    rewrite Hkw. simpl. by rewrite Hsem.
Qed.

Lemma hybrid_search_Ok store query document_id rules llm_service response :
  hybrid_search self extract_keywords store query document_id rules
    llm_service = Ok response
  <-> exists combined_sorted_chunks,
        hybrid_candidates self extract_keywords store query document_id
          rules llm_service = Ok combined_sorted_chunks
        /\ response = {| message := "Query processed successfully.";
                         chunks := format_chunk
                                     <$> kept_chunks combined_sorted_chunks |}.
Proof.
  unfold hybrid_search. split.
  - intros H. inv_bind H. injection H as <-.
    exists a. by rewrite eliminate_duplicates_kept.
  - intros (cands & -> & ->). simpl. by rewrite eliminate_duplicates_kept.
Qed.

(** ** The stated properties *)

(** C1. Dedup invariant.  Whenever [vector_search] or [hybrid_search]
    returns, the entries of the result are the formatted payloads of
    [kept_chunks] applied to the retrieved list, these payloads are
    taken from that list, and their chunk numbers are pairwise
    distinct. *)
Theorem dedup_invariant store document_id llm_service :
  (forall queries response,
      vector_search self store queries document_id llm_service = Ok response ->
      exists final_chunks,
        retrieve self store (get_embeddings llm_service) queries
          document_id [] = Ok final_chunks
        /\ chunks response = format_chunk <$> kept_chunks final_chunks
        /\ kept_chunks final_chunks `sublist_of` final_chunks
        /\ NoDup (chunk_number <$> kept_chunks final_chunks))
  /\ (forall query rules response,
        hybrid_search self extract_keywords store query document_id rules
          llm_service = Ok response ->
        exists combined_sorted_chunks,
          hybrid_candidates self extract_keywords store query document_id
            rules llm_service = Ok combined_sorted_chunks
          /\ chunks response
             = format_chunk <$> kept_chunks combined_sorted_chunks
          /\ kept_chunks combined_sorted_chunks
             `sublist_of` combined_sorted_chunks
          /\ NoDup (chunk_number <$> kept_chunks combined_sorted_chunks)).
Proof.
  split.
  - intros queries response (final_chunks & Hrun & ->)%vector_search_Ok.
    exists final_chunks.
    auto using kept_chunks_sublist, kept_chunks_NoDup.
  - intros query rules response (cands & Hrun & ->)%hybrid_search_Ok.
    exists cands.
    auto using kept_chunks_sublist, kept_chunks_NoDup.
Qed.

(** C2. Hybrid ordering.  Whenever [hybrid_search] returns, the
    payloads behind its entries are in ascending order of
    [chunk_number]; the order is even strict, since no number is
    repeated. *)
Theorem hybrid_ordering store query document_id rules llm_service response :
  hybrid_search self extract_keywords store query document_id rules
    llm_service = Ok response ->
  exists combined_sorted_chunks,
    hybrid_candidates self extract_keywords store query document_id
      rules llm_service = Ok combined_sorted_chunks
    /\ chunks response = format_chunk <$> kept_chunks combined_sorted_chunks
    /\ StronglySorted Z.le (chunk_number <$> kept_chunks combined_sorted_chunks)
    /\ StronglySorted Z.lt (chunk_number <$> kept_chunks combined_sorted_chunks).
Proof.
  intros (cands & Hrun & ->)%hybrid_search_Ok.
  exists cands. split; [done|]. split; [done|].
  apply hybrid_candidates_Ok in Hrun as (kws & kw & sem & _ & _ & _ & ->).
  assert (StronglySorted Z.lt
            (chunk_number <$> kept_chunks (combine kw sem))) as Hlt
    by apply kept_from_ascending, sorted_ordered.
  split; [by apply strictly_ascending_le | done].
Qed.

(** C3. [vector_search] concatenates the per-query payload lists in
    query order and keeps, in the order of the concatenation, the
    first payload of every chunk number: the kept payloads are the
    concatenation with elements removed (so nothing is re-sorted), no
    number is repeated, and each number is represented by its first
    carrier.  If [q1] matches chunks 3, 1 and [q2] matches chunks
    1, 5, the output is chunks 3, 1, 5. *)
Theorem vector_search_first_occurrence store document_id llm_service :
  (forall queries response,
      vector_search self store queries document_id llm_service = Ok response ->
      exists responses,
        answers self store (get_embeddings llm_service) document_id queries
          responses
        /\ chunks response = format_chunk <$> kept_chunks (concat responses)
        /\ kept_chunks (concat responses) `sublist_of` concat responses
        /\ NoDup (chunk_number <$> kept_chunks (concat responses))
        /\ forall n,
             first_with_number n (kept_chunks (concat responses))
             = first_with_number n (concat responses))
  /\ (forall queries responses,
        answers self store (get_embeddings llm_service) document_id queries
          responses ->
        vector_search self store queries document_id llm_service
        = Ok {| message := "Query processed successfully.";
                chunks := format_chunk <$> kept_chunks (concat responses) |})
  /\ (forall q1 q2 a b c d,
        similarity_search self store (get_embeddings llm_service) q1
          document_id = Ok [a; b] ->
        similarity_search self store (get_embeddings llm_service) q2
          document_id = Ok [c; d] ->
        chunk_number a = 3%Z -> chunk_number b = 1%Z ->
        chunk_number c = 1%Z -> chunk_number d = 5%Z ->
        vector_search self store [q1; q2] document_id llm_service
        = Ok {| message := "Query processed successfully.";
                chunks := [format_chunk a; format_chunk b; format_chunk d] |}).
Proof.
  assert (forall queries responses,
             answers self store (get_embeddings llm_service) document_id queries
               responses ->
             vector_search self store queries document_id llm_service
             = Ok {| message := "Query processed successfully.";
                     chunks := format_chunk
                                 <$> kept_chunks (concat responses) |})
    as Hrun.
  { intros queries responses Hall. apply vector_search_Ok.
    exists (concat responses). split; [|done].
    apply retrieve_Ok. by exists responses. }
  split; [|split; [exact Hrun|]].
  - intros queries response (final & Hfinal & ->)%vector_search_Ok.
    apply retrieve_Ok in Hfinal as (responses & Hall & ->).
    exists responses. simpl.
    auto using kept_chunks_sublist, kept_chunks_NoDup, kept_chunks_first.
  - intros q1 q2 a b c d Hq1 Hq2 Ha Hb Hc Hd.
    rewrite (Hrun [q1; q2] [[a; b]; [c; d]])
      by (repeat constructor; done).
    simpl. unfold kept_chunks. simpl. rewrite Ha, Hb, Hc, Hd.
    repeat (case_decide; simpl); try done; set_solver.
Qed.

Lemma keyword_phase_Ok store keywords document_id sorted_keyword_chunks :
  keyword_phase self store keywords document_id = Ok sorted_keyword_chunks ->
  if truthy keywords then
    exists keyword_response,
      query_points (client self) store (collection_name self) None
        (keyword_filter document_id (or_empty keywords)) None true
      = Ok keyword_response
      /\ sorted_keyword_chunks
         = sorted (fun chunk => count_keywords (text chunk) (or_empty keywords))
             (payload <$> keyword_response) true
  else sorted_keyword_chunks = [].
Proof.
  unfold keyword_phase. destruct (truthy keywords).
  - intros H. inv_bind H. injection H as <-. eauto.
  - by intros [= <-].
Qed.

Lemma similarity_search_Ok store embeddings query document_id response :
  similarity_search self store embeddings query document_id = Ok response ->
  exists embedded_query query_response,
    embed_query embeddings query = Ok embedded_query
    /\ query_points (client self) store (collection_name self)
         (Some embedded_query) (document_filter document_id)
         (Some 40%nat) true = Ok query_response
    /\ response = payload <$> query_response.
Proof.
  unfold similarity_search. intros H. inv_bind H. inv_bind H.
  injection H as <-. eauto.
Qed.

(** C4. Keyword cap and semantic cap.  The list that [hybrid_search]
    sorts and deduplicates is a rearrangement of the first 20
    keyword-ranked chunks followed by the semantic chunks, whatever the
    number of keyword matches; and with a store that honors the limit
    it is given, every similarity search yields at most 40 chunks, so
    [vector_search] gathers at most 40 per query and [hybrid_search]
    merges at most 20 + 40. *)
Theorem retrieval_caps store document_id llm_service :
  (forall query rules combined_sorted_chunks,
      hybrid_candidates self extract_keywords store query document_id rules
        llm_service = Ok combined_sorted_chunks ->
      exists keywords sorted_keyword_chunks semantic_response,
        extract_keywords query rules llm_service = Ok keywords
        /\ keyword_phase self store keywords document_id
           = Ok sorted_keyword_chunks
        /\ similarity_search self store (get_embeddings llm_service)
             query document_id = Ok semantic_response
        /\ combined_sorted_chunks
           ≡ₚ take 20 sorted_keyword_chunks ++ semantic_response
        /\ (length (take 20 sorted_keyword_chunks) <= 20)%nat
        /\ (honors_limit (client self) ->
            (length semantic_response <= 40)%nat
            /\ (length combined_sorted_chunks <= 60)%nat))
  /\ (honors_limit (client self) ->
      forall query response,
        similarity_search self store (get_embeddings llm_service) query
          document_id = Ok response ->
        (length response <= 40)%nat)
  /\ (honors_limit (client self) ->
      forall queries final_chunks,
        retrieve self store (get_embeddings llm_service) queries
          document_id [] = Ok final_chunks ->
        (length final_chunks <= 40 * length queries)%nat).
Proof.
  assert (honors_limit (client self) ->
          forall query response,
            similarity_search self store (get_embeddings llm_service) query
              document_id = Ok response ->
            (length response <= 40)%nat) as Hsem.
  { intros Hlimit query response
      (v & pts & _ & Hpts%Hlimit & ->)%similarity_search_Ok.
    by rewrite length_fmap. }
  split; [|split; [exact Hsem|]].
  - intros query rules cands
      (kws & kw & sem & Hkws & Hkw & Hs & ->)%hybrid_candidates_Ok.
    exists kws, kw, sem. repeat (split; [done|]).
    assert (length (take 20 kw) <= 20)%nat by (rewrite length_take; lia).
    split; [apply sorted_perm|]. split; [done|].
    intros Hlimit. pose proof (Hsem Hlimit _ _ Hs).
    split; [done|]. unfold combine.
    rewrite sorted_length, length_app. lia.
  - intros Hlimit queries final (responses & Hall & ->)%retrieve_Ok.
    simpl. induction Hall as [|query response queries responses Hq _ IH].
    + simpl. lia.
    + simpl. rewrite length_app. pose proof (Hsem Hlimit _ _ Hq). lia.
Qed.

(** C5. Whenever [hybrid_search] returns and a chunk number occurs
    among the first 20 keyword-ranked chunks, the one entry kept for
    that number is the first keyword-ranked chunk carrying it, whether
    or not the semantic chunks carry the number too. *)
Theorem keyword_copy_wins store query document_id rules llm_service response :
  hybrid_search self extract_keywords store query document_id rules
    llm_service = Ok response ->
  exists keywords sorted_keyword_chunks semantic_response,
    extract_keywords query rules llm_service = Ok keywords
    /\ keyword_phase self store keywords document_id
       = Ok sorted_keyword_chunks
    /\ similarity_search self store (get_embeddings llm_service)
         query document_id = Ok semantic_response
    /\ chunks response
       = format_chunk
           <$> kept_chunks (combine sorted_keyword_chunks semantic_response)
    /\ forall n,
         n ∈ chunk_number <$> take 20 sorted_keyword_chunks ->
         exists p,
           first_with_number n (take 20 sorted_keyword_chunks) = Some p
           /\ format_chunk p ∈ chunks response
           /\ forall q,
                q ∈ kept_chunks
                      (combine sorted_keyword_chunks semantic_response) ->
                chunk_number q = n -> q = p.
Proof.
  intros (cands & Hrun & ->)%hybrid_search_Ok.
  apply hybrid_candidates_Ok in Hrun as (kws & kw & sem & ? & ? & ? & ->).
  exists kws, kw, sem. repeat (split; [done|]).
  intros n Hn.
  destruct (first_with_number n (take 20 kw)) as [p|] eqn:Hp;
    [|by apply first_with_number_None in Hp].
  exists p. split; [done|].
  assert (first_with_number n (kept_chunks (combine kw sem)) = Some p)
    as Hkept.
  { unfold combine.
    by rewrite kept_chunks_first, first_with_number_sorted,
      first_with_number_app, Hp. }
  split.
  - simpl. apply list_elem_of_fmap_2.
    by apply first_with_number_Some in Hkept as [? _].
  - intros q Hq <-.
    pose proof (first_with_number_NoDup _ _ (kept_chunks_NoDup _) Hq).
    congruence.
Qed.

(** C6. Empty-keyword degeneration.  When keyword extraction returns
    nothing to search for ([None] or the empty list), the keyword phase
    returns the empty list without consulting the store, and
    [hybrid_search] does what the similarity search of
    [vector_search] on the one query does, followed by duplicate
    elimination and the sort by chunk number, failures included; the
    two orders of sorting and eliminating agree. *)
Theorem empty_keywords_degenerate store query document_id rules llm_service
    keywords :
  extract_keywords query rules llm_service = Ok keywords ->
  truthy keywords = false ->
  keyword_phase self store keywords document_id = Ok []
  /\ hybrid_search self extract_keywords store query document_id rules
       llm_service
     = (let* final_chunks :=
          retrieve self store (get_embeddings llm_service) [query]
            document_id [] in
        Ok {| message := "Query processed successfully.";
              chunks := format_chunk
                          <$> sorted chunk_number (kept_chunks final_chunks)
                                false |})
  /\ (forall response,
        vector_search self store [query] document_id llm_service
        = Ok response ->
        exists semantic_response,
          similarity_search self store (get_embeddings llm_service) query
            document_id = Ok semantic_response
          /\ chunks response = format_chunk <$> kept_chunks semantic_response
          /\ hybrid_search self extract_keywords store query document_id
               rules llm_service
             = Ok {| message := message response;
                     chunks :=
                       format_chunk
                         <$> sorted chunk_number
                               (kept_chunks semantic_response) false |}
          /\ sorted chunk_number (kept_chunks semantic_response) false
             = kept_chunks (sorted chunk_number semantic_response false)).
Proof.
  intros Hkws Hfalsy.
  assert (keyword_phase self store keywords document_id = Ok []) as Hkw
    by (unfold keyword_phase; by rewrite Hfalsy).
  assert (hybrid_search self extract_keywords store query document_id rules
            llm_service
          = (let* semantic_response :=
               similarity_search self store (get_embeddings llm_service)
                 query document_id in
             Ok {| message := "Query processed successfully.";
                   chunks := format_chunk
                               <$> sorted chunk_number
                                     (kept_chunks semantic_response)
                                     false |})) as Hhybrid.
  { unfold hybrid_search, hybrid_candidates. rewrite Hkws. simpl.
    rewrite Hkw. simpl.
    destruct (similarity_search _ _ _ _ _) as [sem|e]; simpl; [|done].
    unfold combine. simpl.
    by rewrite eliminate_duplicates_kept, kept_chunks_sorted. }
  split; [done|]. split.
  - rewrite Hhybrid. simpl.
    by destruct (similarity_search _ _ _ _ _) as [sem|e].
  - intros response (final & Hfinal & ->)%vector_search_Ok.
    simpl in Hfinal.
    destruct (similarity_search _ _ _ _ _) as [sem|e] eqn:Hsem;
      simpl in Hfinal; [|done].
    injection Hfinal as <-. exists sem.
    split; [done|]. split; [done|].
    split; [by rewrite Hhybrid | by rewrite kept_chunks_sorted].
Qed.

Lemma meets_document_condition p document :
  meets_value p (document_condition document) -> belongs_to document p.
Proof. unfold meets_value, string_field, belongs_to. simpl. congruence. Qed.

Lemma similarity_search_scoped store embeddings query document response :
  honors_filter (client self) ->
  similarity_search self store embeddings query document = Ok response ->
  Forall (belongs_to document) response.
Proof.
  intros Hfilter (v & pts & _ & Hpts & ->)%similarity_search_Ok.
  apply Forall_fmap, Forall_forall. intros pt Hpt.
  apply meets_document_condition.
  eapply Hfilter; [exact Hpts | done | left].
Qed.

Lemma keyword_phase_scoped store keywords document sorted_keyword_chunks :
  honors_filter (client self) ->
  keyword_phase self store keywords document = Ok sorted_keyword_chunks ->
  Forall (belongs_to document) sorted_keyword_chunks.
Proof.
  intros Hfilter Hrun%keyword_phase_Ok. destruct (truthy keywords).
  - destruct Hrun as (pts & Hpts & ->).
    apply Forall_forall. intros p Hp%sorted_elem_of.
    apply list_elem_of_fmap in Hp as (pt & -> & Hpt).
    apply meets_document_condition.
    eapply Hfilter; [exact Hpts | done | left].
  - subst. constructor.
Qed.

Lemma kept_chunks_Forall (P : Payload -> Prop) l :
  Forall P l -> Forall P (kept_chunks l).
Proof.
  rewrite !Forall_forall. intros Hl p Hp.
  eapply Hl, elem_of_sublist; [done | apply kept_chunks_sublist].
Qed.

(** C8. Document scoping.  With a point store that honors the filter
    it is given, every payload obtained by a similarity search, by the
    keyword phase, and so every payload behind an entry returned by
    [vector_search] or [hybrid_search] for [document_id], carries that
    [document_id]. *)
Theorem document_scoping store document_id llm_service :
  honors_filter (client self) ->
  (forall query response,
      similarity_search self store (get_embeddings llm_service) query
        document_id = Ok response ->
      Forall (belongs_to document_id) response)
  /\ (forall keywords sorted_keyword_chunks,
        keyword_phase self store keywords document_id
        = Ok sorted_keyword_chunks ->
        Forall (belongs_to document_id) sorted_keyword_chunks)
  /\ (forall queries response,
        vector_search self store queries document_id llm_service
        = Ok response ->
        exists final_chunks,
          retrieve self store (get_embeddings llm_service) queries
            document_id [] = Ok final_chunks
          /\ chunks response = format_chunk <$> kept_chunks final_chunks
          /\ Forall (belongs_to document_id) final_chunks
          /\ Forall (belongs_to document_id) (kept_chunks final_chunks))
  /\ (forall query rules response,
        hybrid_search self extract_keywords store query document_id rules
          llm_service = Ok response ->
        exists combined_sorted_chunks,
          hybrid_candidates self extract_keywords store query document_id
            rules llm_service = Ok combined_sorted_chunks
          /\ chunks response
             = format_chunk <$> kept_chunks combined_sorted_chunks
          /\ Forall (belongs_to document_id) combined_sorted_chunks
          /\ Forall (belongs_to document_id)
               (kept_chunks combined_sorted_chunks)).
Proof.
  intros Hfilter.
  split; [eauto using similarity_search_scoped|].
  split; [eauto using keyword_phase_scoped|].
  split.
  - intros queries response (final & Hfinal & ->)%vector_search_Ok.
    exists final. do 2 (split; [done|]).
    assert (Forall (belongs_to document_id) final);
      [|by auto using kept_chunks_Forall].
    apply retrieve_Ok in Hfinal as (responses & Hall & ->). simpl.
    apply Forall_concat.
    induction Hall; constructor; eauto using similarity_search_scoped.
  - intros query rules response (cands & Hrun & ->)%hybrid_search_Ok.
    exists cands. do 2 (split; [done|]).
    assert (Forall (belongs_to document_id) cands);
      [|by auto using kept_chunks_Forall].
    apply hybrid_candidates_Ok in Hrun as (kws & kw & sem & _ & Hkw & Hs & ->).
    apply Forall_forall. intros p Hp%sorted_elem_of.
    apply elem_of_app in Hp as [Hp%subseteq_take|Hp].
    + pose proof (keyword_phase_scoped _ _ _ _ Hfilter Hkw) as Hall.
      rewrite Forall_forall in Hall. by apply Hall.
    + pose proof (similarity_search_scoped _ _ _ _ _ Hfilter Hs) as Hall.
      rewrite Forall_forall in Hall. by apply Hall.
Qed.

(** C9. [decomposed_search] hands the decomposer's list, in its order,
    to [vector_search] and returns that list together with the chunks
    [vector_search] returns for it; an empty list gives an empty chunk
    list and no error. *)
Theorem decomposed_search_spec
    (decompose_query : string -> result (list string))
    store query document_id (rules : list Rule) llm_service decomposition :
  decompose_query query = Ok decomposition ->
  decomposed_search self decompose_query store query document_id rules
    llm_service
  = match vector_search self store decomposition document_id llm_service with
    | Ok response =>
        Ok {| sub_queries := decomposition;
              sub_query_chunks := chunks response |}
    | Raise e => Raise e
    end
  /\ (decomposition = [] ->
      decomposed_search self decompose_query store query document_id rules
        llm_service
      = Ok {| sub_queries := []; sub_query_chunks := [] |}).
Proof.
  intros Hsub. unfold decomposed_search. rewrite Hsub. simpl.
  split; [done|]. by intros ->.
Qed.

(** C10. [delete_document] either re-raises what the store's [delete]
    raised, or returns the success dictionary; so whenever it returns,
    the dictionary is the success one and its status is not
    ["error"]. *)
Theorem delete_document_result store document_id :
  match delete (client self) store (collection_name self)
          (document_filter document_id) true with
  | Ok store' =>
      delete_document self store document_id
      = Ok (store',
            {[ "status" := "success";
               "message" := "Document deleted successfully." ]})
  | Raise e => delete_document self store document_id = Raise e
  end
  /\ forall store' response,
       delete_document self store document_id = Ok (store', response) ->
       response = {[ "status" := "success";
                     "message" := "Document deleted successfully." ]}
       /\ response !! "status" = Some "success"
       /\ response !! "message" = Some "Document deleted successfully."
       /\ response !! "status" <> Some "error".
Proof.
  unfold delete_document.
  destruct (delete _ _ _ _ _) as [store'|e]; simpl; split; try done.
  intros ? ? [= <- <-]. repeat split; try done.
Qed.

(** C7, amended.  In the keyword phase the score of a chunk is the sum,
    over the extracted keywords, of [count] applied to the lowercased
    text and the lowercased keyword, and [count] is the largest number
    of pairwise non-overlapping occurrences; the matched chunks come
    out rearranged by this score, descending, chunks of equal score in
    the order the store returned them. *)
Theorem keyword_ranking store keywords document_id sorted_keyword_chunks :
  keywords <> [] ->
  keyword_phase self store (Some keywords) document_id
  = Ok sorted_keyword_chunks ->
  exists keyword_response,
    query_points (client self) store (collection_name self) None
      (keyword_filter document_id keywords) None true = Ok keyword_response
    /\ sorted_keyword_chunks ≡ₚ payload <$> keyword_response
    /\ StronglySorted
         (fun p q => (count_keywords (text q) keywords
                      <= count_keywords (text p) keywords)%Z)
         sorted_keyword_chunks
    /\ (forall n,
          filter (fun p => count_keywords (text p) keywords = n)
            sorted_keyword_chunks
          = filter (fun p => count_keywords (text p) keywords = n)
              (payload <$> keyword_response))
    /\ (forall txt,
          count_keywords txt keywords
          = foldr (fun keyword total =>
                     (count (lower txt) (lower keyword) + total)%Z)
              0%Z keywords)
    /\ (forall txt keyword,
          (exists ps,
              non_overlapping (lower keyword) (lower txt) ps
              /\ Z.of_nat (length ps) = count (lower txt) (lower keyword))
          /\ (forall ps,
                non_overlapping (lower keyword) (lower txt) ps ->
                (Z.of_nat (length ps)
                 <= count (lower txt) (lower keyword))%Z)).
Proof.
  intros Hne Hrun%keyword_phase_Ok.
  destruct keywords as [|kw kws]; [by elim Hne|].
  cbn [truthy or_empty] in Hrun.
  destruct Hrun as (pts & Hpts & ->). exists pts.
  split; [exact Hpts|]. split; [apply sorted_perm|].
  split; [exact (sorted_ordered _ true _)|].
  split; [intros n; apply (sorted_stable _ true)|].
  split; [intros txt; apply count_keywords_sum|].
  intros txt keyword. apply count_is_max_non_overlapping.
Qed.
End Runs.

(** ** The in-memory store honors its contracts *)

Lemma fake_honors_limit : honors_limit (client Fake.index).
Proof.
  intros store collection query query_filter n with_payload pts [= <-].
  simpl. rewrite length_take. lia.
Qed.

Lemma fake_condition_meets p cond :
  Fake.condition_holds p cond = true -> meets_value p cond.
Proof.
  unfold Fake.condition_holds, meets_value.
  destruct (string_field p (key cond)) as [s|], (match_ cond) as [v|t];
    try done.
  by intros ->%bool_decide_eq_true.
Qed.

Lemma fake_honors_filter : honors_filter (client Fake.index).
Proof.
  intros store collection query query_filter limit with_payload pts [= <-]
    pt cond Hpt%subseteq_take Hcond.
  apply list_elem_of_In, filter_In in Hpt as [_ Hpt].
  unfold Fake.filter_holds in Hpt. apply andb_prop in Hpt as [Hmust _].
  apply fake_condition_meets.
  rewrite forallb_forall in Hmust. by apply Hmust, list_elem_of_In.
Qed.

(** ** The properties on the scenarios *)

Lemma dedup_invariant_witness :
  vector_search Fake.index Scenario.store ["q1"; "q2"] "D" Fake.llm_service
  = Ok (Scenario.processed [Scenario.c3; Scenario.c1; Scenario.c5])
  /\ exists final_chunks,
       retrieve Fake.index Scenario.store (get_embeddings Fake.llm_service)
         ["q1"; "q2"] "D" [] = Ok final_chunks
       /\ chunks (Scenario.processed [Scenario.c3; Scenario.c1; Scenario.c5])
          = format_chunk <$> kept_chunks final_chunks
       /\ kept_chunks final_chunks `sublist_of` final_chunks
       /\ NoDup (chunk_number <$> kept_chunks final_chunks).
Proof.
  split; [vm_compute; reflexivity|].
  apply (proj1 (dedup_invariant Fake.index Scenario.extract_keywords
                  Scenario.store "D" Fake.llm_service)).
  vm_compute; reflexivity.
Defined.

Lemma hybrid_ordering_witness :
  hybrid_search Fake.index Scenario.extract_keywords Scenario.store
    "where is foo" "D" [] Fake.llm_service
  = Ok (Scenario.processed [Scenario.c1; Scenario.c2; Scenario.c4])
  /\ exists combined_sorted_chunks,
       hybrid_candidates Fake.index Scenario.extract_keywords Scenario.store
         "where is foo" "D" [] Fake.llm_service = Ok combined_sorted_chunks
       /\ chunks (Scenario.processed [Scenario.c1; Scenario.c2; Scenario.c4])
          = format_chunk <$> kept_chunks combined_sorted_chunks
       /\ StronglySorted Z.le
            (chunk_number <$> kept_chunks combined_sorted_chunks)
       /\ StronglySorted Z.lt
            (chunk_number <$> kept_chunks combined_sorted_chunks).
Proof.
  split; [vm_compute; reflexivity|].
  apply (hybrid_ordering Fake.index Scenario.extract_keywords Scenario.store
           "where is foo" "D" [] Fake.llm_service).
  vm_compute; reflexivity.
Defined.

Lemma vector_search_first_occurrence_witness :
  vector_search Fake.index Scenario.store ["sub-a"; "sub-b"] "D"
    Fake.llm_service
  = Ok {| message := "Query processed successfully.";
          chunks := [format_chunk (payload Scenario.c3);
                     format_chunk (payload Scenario.c1);
                     format_chunk (payload Scenario.c5)] |}.
Proof.
  apply (proj2 (proj2 (vector_search_first_occurrence Fake.index
                         Scenario.store "D" Fake.llm_service))
           "sub-a" "sub-b" (payload Scenario.c3) (payload Scenario.c1)
           (payload Scenario.c1) (payload Scenario.c5));
    reflexivity.
Defined.

Lemma retrieval_caps_witness :
  retrieve Fake.index Scenario.store (get_embeddings Fake.llm_service)
    ["q1"; "q2"] "D" []
  = Ok (payload <$> [Scenario.c3; Scenario.c1; Scenario.c1; Scenario.c5])
  /\ (length (payload
                <$> [Scenario.c3; Scenario.c1; Scenario.c1; Scenario.c5])
      <= 40 * length ["q1"; "q2"])%nat.
Proof.
  split; [reflexivity|].
  apply (proj2 (proj2 (retrieval_caps Fake.index Scenario.extract_keywords
                         Scenario.store "D" Fake.llm_service))
           fake_honors_limit ["q1"; "q2"]).
  reflexivity.
Defined.

Lemma keyword_copy_wins_witness :
  exists keywords sorted_keyword_chunks semantic_response,
    Scenario.extract_keywords "where is foo" [] Fake.llm_service = Ok keywords
    /\ keyword_phase Fake.index Scenario.store keywords "D"
       = Ok sorted_keyword_chunks
    /\ similarity_search Fake.index Scenario.store
         (get_embeddings Fake.llm_service) "where is foo" "D"
       = Ok semantic_response
    /\ chunks (Scenario.processed [Scenario.c1; Scenario.c2; Scenario.c4])
       = format_chunk
           <$> kept_chunks (combine sorted_keyword_chunks semantic_response)
    /\ forall n,
         n ∈ chunk_number <$> take 20 sorted_keyword_chunks ->
         exists p,
           first_with_number n (take 20 sorted_keyword_chunks) = Some p
           /\ format_chunk p
              ∈ chunks (Scenario.processed
                          [Scenario.c1; Scenario.c2; Scenario.c4])
           /\ forall q,
                q ∈ kept_chunks
                      (combine sorted_keyword_chunks semantic_response) ->
                chunk_number q = n -> q = p.
Proof.
  apply (keyword_copy_wins Fake.index Scenario.extract_keywords Scenario.store
           "where is foo" "D" [] Fake.llm_service).
  vm_compute; reflexivity.
Defined.

Lemma empty_keywords_degenerate_witness :
  hybrid_search Fake.index Scenario.extract_keywords Scenario.store
    "q1" "D" [] Fake.llm_service
  = (let* final_chunks :=
       retrieve Fake.index Scenario.store (get_embeddings Fake.llm_service)
         ["q1"] "D" [] in
     Ok {| message := "Query processed successfully.";
           chunks := format_chunk
                       <$> sorted chunk_number (kept_chunks final_chunks)
                             false |}).
Proof.
  apply (empty_keywords_degenerate Fake.index Scenario.extract_keywords
           Scenario.store "q1" "D" [] Fake.llm_service (Some []));
    reflexivity.
Defined.

(** C7, as stated, fails: with the keyword ["ANA"] the text ["Banana"]
    scores 1, although the keyword occurs in it twice, ignoring case (at
    positions 1 and 3); so the chunk ["ana"], returned first by the
    store, stays ahead of ["Banana"], which ranking by the number of
    occurrences would put first. *)
Lemma keyword_score_counterexample :
  count_keywords "Banana" ["ANA"] = 1%Z
  /\ occurrence_score "Banana" ["ANA"] = 2%Z
  /\ count_keywords "Banana" ["ANA"] <> occurrence_score "Banana" ["ANA"]
  /\ keyword_phase Fake.index Scenario.fruit (Some ["ANA"]) "F"
     = Ok [payload Scenario.ana; payload Scenario.banana]
  /\ sorted (fun chunk => occurrence_score (text chunk) ["ANA"])
       [payload Scenario.ana; payload Scenario.banana] true
     = [payload Scenario.banana; payload Scenario.ana].
Proof. repeat split; try (vm_compute; reflexivity). by vm_compute. Qed.

Lemma keyword_ranking_witness :
  exists keyword_response,
    query_points (client Fake.index) Scenario.store
      (collection_name Fake.index) None (keyword_filter "D" ["foo"]) None true
    = Ok keyword_response
    /\ [payload Scenario.c1; payload Scenario.c2] ≡ₚ payload <$> keyword_response
    /\ StronglySorted
         (fun p q => (count_keywords (text q) ["foo"]
                      <= count_keywords (text p) ["foo"])%Z)
         [payload Scenario.c1; payload Scenario.c2]
    /\ (forall n,
          filter (fun p => count_keywords (text p) ["foo"] = n)
            [payload Scenario.c1; payload Scenario.c2]
          = filter (fun p => count_keywords (text p) ["foo"] = n)
              (payload <$> keyword_response))
    /\ (forall txt,
          count_keywords txt ["foo"]
          = foldr (fun keyword total =>
                     (count (lower txt) (lower keyword) + total)%Z)
              0%Z ["foo"])
    /\ (forall txt keyword,
          (exists ps,
              non_overlapping (lower keyword) (lower txt) ps
              /\ Z.of_nat (length ps) = count (lower txt) (lower keyword))
          /\ (forall ps,
                non_overlapping (lower keyword) (lower txt) ps ->
                (Z.of_nat (length ps) <= count (lower txt) (lower keyword))%Z)).
Proof.
  apply (keyword_ranking Fake.index Scenario.store ["foo"] "D"
           [payload Scenario.c1; payload Scenario.c2]);
    [discriminate | vm_compute; reflexivity].
Defined.

Lemma document_scoping_witness :
  exists final_chunks,
    retrieve Fake.index Scenario.store (get_embeddings Fake.llm_service)
      ["q1"; "q2"] "D" [] = Ok final_chunks
    /\ chunks (Scenario.processed [Scenario.c3; Scenario.c1; Scenario.c5])
       = format_chunk <$> kept_chunks final_chunks
    /\ Forall (belongs_to "D") final_chunks
    /\ Forall (belongs_to "D") (kept_chunks final_chunks).
Proof.
  apply (proj1 (proj2 (proj2 (document_scoping Fake.index
                                Scenario.extract_keywords Scenario.store "D"
                                Fake.llm_service fake_honors_filter)))
           ["q1"; "q2"]).
  vm_compute; reflexivity.
Defined.

Lemma decomposed_search_spec_witness :
  decomposed_search Fake.index Scenario.decompose_query Scenario.store
    "complex query" "D" ([] : list unit) Fake.llm_service
  = match vector_search Fake.index Scenario.store ["sub-a"; "sub-b"] "D"
            Fake.llm_service with
    | Ok response =>
        Ok {| sub_queries := ["sub-a"; "sub-b"];
              sub_query_chunks := chunks response |}
    | Raise e => Raise e
    end.
Proof.
  apply (decomposed_search_spec Fake.index Scenario.decompose_query
           Scenario.store "complex query" "D" [] Fake.llm_service
           ["sub-a"; "sub-b"]).
  reflexivity.
Defined.

Lemma delete_document_result_witness :
  delete_document Fake.index Scenario.store "D"
  = Ok (Scenario.after_delete,
        {[ "status" := "success";
           "message" := "Document deleted successfully." ]})
  /\ ({[ "status" := "success";
         "message" := "Document deleted successfully." ]}
      : gmap string string) !! "status" = Some "success".
Proof.
  assert (delete_document Fake.index Scenario.store "D"
          = Ok (Scenario.after_delete,
                {[ "status" := "success";
                   "message" := "Document deleted successfully." ]})) as Hrun
    by reflexivity.
  split; [exact Hrun|].
  apply (proj2 (delete_document_result Fake.index Scenario.store "D")
           _ _ Hrun).
Defined.

(** A store that cannot be reached: the exception comes through. *)
Example delete_document_unreachable :
  delete_document Fake.unreachable Scenario.store "D"
  = Raise (Exception "connection refused").
Proof. reflexivity. Qed.

(** After the deletion a search of the document finds nothing. *)
Example search_after_delete :
  vector_search Fake.index Scenario.after_delete ["q1"; "q2"] "D"
    Fake.llm_service
  = Ok {| message := "Query processed successfully."; chunks := [] |}.
Proof. reflexivity. Qed.

(** * Further properties of the operations *)

(** ** More about the duplicate elimination *)

Lemma elem_of_numbers_first n l :
  n ∈ chunk_number <$> l <-> is_Some (first_with_number n l).
Proof.
  destruct (first_with_number n l) as [p|] eqn:Hp.
  - split; [by eauto|]. intros _.
    apply first_with_number_Some in Hp as [Hp <-].
    by apply list_elem_of_fmap_2.
  - apply first_with_number_None in Hp. split; [done|]. by intros [? [=]].
Qed.

Lemma kept_chunks_numbers n l :
  n ∈ chunk_number <$> kept_chunks l <-> n ∈ chunk_number <$> l.
Proof. by rewrite !elem_of_numbers_first, kept_chunks_first. Qed.

Lemma kept_chunks_length l :
  length (kept_chunks l) = size (list_to_set (chunk_number <$> l) : gset Z).
Proof.
  rewrite <- (length_fmap chunk_number).
  rewrite <- (size_list_to_set (C := gset Z)) by apply kept_chunks_NoDup.
  f_equal. apply set_eq. intros n.
  by rewrite !elem_of_list_to_set, kept_chunks_numbers.
Qed.

Lemma kept_from_none seen l :
  (forall p, p ∈ l -> chunk_number p ∈ seen) -> kept_from seen l = [].
Proof.
  induction l as [|chunk l IH]; intros Hseen; [done|]. simpl.
  rewrite decide_True by (apply Hseen; left).
  apply IH. intros p Hp. apply Hseen. by right.
Qed.

Lemma kept_from_app seen l l' :
  (forall p, p ∈ l' ->
             chunk_number p ∈ seen \/ chunk_number p ∈ chunk_number <$> l) ->
  kept_from seen (l ++ l') = kept_from seen l.
Proof.
  revert seen. induction l as [|chunk l IH]; intros seen Hcovered; simpl.
  - apply kept_from_none. intros p [?|Hp%elem_of_nil]%Hcovered; done.
  - case_decide.
    + apply IH. intros p [?|[->|?]%elem_of_cons]%Hcovered; auto.
    + f_equal. apply IH.
      intros p [?|[->|?]%elem_of_cons]%Hcovered; [left..|by right]; set_solver.
Qed.

Lemma elem_of_concat {A : Type} (x : A) (ls : list (list A)) :
  x ∈ concat ls <-> exists l, x ∈ l /\ l ∈ ls.
Proof.
  induction ls as [|l ls IH]; simpl.
  - split; [by intros ?%elem_of_nil | by intros (? & _ & ?%elem_of_nil)].
  - rewrite elem_of_app, IH. split.
    + intros [?|(l' & ? & ?)]; [exists l | exists l']; split; try done;
        [left | by right].
    + intros (l' & ? & [->|?]%elem_of_cons); eauto.
Qed.

Section Further.
Context {Vector Store : Type}.
Variable self : QdrantIndex Vector Store.

(** X1. [vector_search] loses no chunk number: a number is carried by
    an entry of the result exactly if some similarity search returned a
    payload with it, and the result has as many entries as there are
    distinct chunk numbers among the retrieved payloads. *)
Theorem vector_search_covers store queries document_id llm_service response :
  vector_search self store queries document_id llm_service = Ok response ->
  exists final_chunks,
    retrieve self store (get_embeddings llm_service) queries document_id []
    = Ok final_chunks
    /\ chunks response = format_chunk <$> kept_chunks final_chunks
    /\ (forall n,
          n ∈ chunk_number <$> kept_chunks final_chunks
          <-> n ∈ chunk_number <$> final_chunks)
    /\ length (chunks response)
       = size (list_to_set (chunk_number <$> final_chunks) : gset Z).
Proof.
  intros (final & Hrun & ->)%vector_search_Ok. exists final.
  do 2 (split; [done|]).
  split; [exact (fun n => kept_chunks_numbers n final)|].
  simpl. rewrite length_fmap. apply kept_chunks_length.
Qed.



Lemma answers_elem_of store embeddings document_id queries responses query :
  answers self store embeddings document_id queries responses ->
  query ∈ queries ->
  exists response,
    response ∈ responses
    /\ similarity_search self store embeddings query document_id = Ok response.
Proof.
  induction 1 as [|q response queries responses Hq _ IH].
  - by intros ?%elem_of_nil.
  - intros [->|Hin]%elem_of_cons.
    + exists response. split; [left | done].
    + destruct (IH Hin) as (r & ? & ?). exists r. split; [by right | done].
Qed.

(** X3. Asking again what was already asked changes nothing: when
    every query of [again] occurs in [queries], [vector_search] on
    [queries ++ again] returns what it returns on [queries]. *)
Theorem vector_search_repeated store queries again document_id llm_service
    response :
  vector_search self store queries document_id llm_service = Ok response ->
  (forall query, query ∈ again -> query ∈ queries) ->
  vector_search self store (queries ++ again) document_id llm_service
  = Ok response.
Proof.
  intros (final & Hrun & ->)%vector_search_Ok Hagain.
  apply retrieve_Ok in Hrun as (responses & Hall & ->). simpl.
  assert (exists responses',
             answers self store (get_embeddings llm_service) document_id
               again responses'
             /\ forall r, r ∈ responses' -> r ∈ responses)
    as (responses' & Hall' & Hsub).
  { induction again as [|q again IH].
    - exists []. split; [constructor|]. by intros ? ?%elem_of_nil.
    - destruct IH as (rs & Hrs & Hsub);
        [intros; apply Hagain; by right|].
      destruct (answers_elem_of _ _ _ _ _ q Hall) as (r & Hr & Hq);
        [apply Hagain; left|].
      exists (r :: rs). split; [by constructor|].
      intros r' [->|?]%elem_of_cons; auto. }
  apply vector_search_Ok. exists (concat (responses ++ responses')).
  split.
  - apply retrieve_Ok. exists (responses ++ responses').
    split; [by apply Forall2_app | done].
  - f_equal. f_equal. rewrite concat_app. unfold kept_chunks.
    symmetry. apply kept_from_app. intros p Hp. right.
    apply list_elem_of_fmap_2.
    apply elem_of_concat in Hp as (r & Hp & Hr%Hsub).
    apply elem_of_concat. eauto.
Qed.

End Further.

(** ** Ingestion *)
Section IngestionFacts.
Context {V P Document Vector Store : Type}.
Variable self : QdrantIndex Vector Store.
Variable writes : QdrantWrites P Store.
Variable point_struct : V -> V -> gmap string V -> result P.
Variable prepare_chunks :
  string -> list Document -> LLMService Vector ->
  result (gmap nat (gmap string V) * list nat).

Lemma stripped_no_id (objects : gmap nat (gmap string V)) entry :
  stripped objects entry !! "id" = None.
Proof.
  unfold stripped. rewrite lookup_delete_ne by done. apply lookup_delete_eq.
Qed.

Lemma made_from_same (objects objects' : gmap nat (gmap string V)) entry point :
  objects' !!! entry = objects !!! entry ->
  made_from point_struct objects entry point ->
  made_from point_struct objects' entry point.
Proof. unfold made_from, stripped. by intros ->. Qed.

Lemma point_of_entry_Ok (objects : gmap nat (gmap string V)) entry point objects' :
  point_of_entry point_struct objects entry = Ok (point, objects')
  <-> made_from point_struct objects entry point
      /\ objects' = <[entry := stripped objects entry]> objects.
Proof.
  unfold point_of_entry, pop, made_from.
  destruct ((objects !!! entry) !! "id") as [id|] eqn:Hid; simpl;
    [|split; [done | by intros [(? & ? & [=] & _) _]]].
  rewrite lookup_total_insert_eq, lookup_delete_ne by done.
  destruct ((objects !!! entry) !! "vector") as [vector|] eqn:Hvector; simpl;
    [|split; [done | by intros [(? & ? & _ & [=] & _) _]]].
  rewrite lookup_total_insert_eq, insert_insert_eq. fold (stripped objects entry).
  destruct (point_struct id vector (stripped objects entry)) as [pt|e] eqn:Hpt;
    simpl.
  - split.
    + intros [= <- <-]. eauto 10.
    + intros [(? & ? & [= <-] & [= <-] & Hpt') ->]. congruence.
  - split; [done|]. intros [(? & ? & [= <-] & [= <-] & Hpt') _]. congruence.
Qed.

Lemma points_of_entries_inv (objects : gmap nat (gmap string V)) entries points
    objects' :
  points_of_entries point_struct objects entries = Ok (points, objects') ->
  NoDup entries
  /\ Forall2 (made_from point_struct objects) entries points
  /\ popped objects objects' entries.
Proof.
  revert objects points objects'.
  induction entries as [|entry entries IH]; intros objects points objects'; simpl.
  - intros [= <- <-]. split; [constructor|]. split; [constructor|].
    intros r. by rewrite decide_False by apply not_elem_of_nil.
  - intros H. inv_bind H. destruct a as [point o1].
    apply point_of_entry_Ok in Ha as [Hpoint ->].
    inv_bind H. destruct a as [rest o2]. injection H as <- <-.
    apply IH in Ha as (Hnd & Hrest & Hpopped). simpl in *.
    assert (entry ∉ entries) as Hfresh.
    { intros Hin. apply list_elem_of_lookup in Hin as [i Hi].
      destruct (Forall2_lookup_l _ _ _ _ _ Hrest Hi) as (pt & _ & id & _ & Hid & _).
      rewrite lookup_total_insert_eq, stripped_no_id in Hid. done. }
    assert (forall r, r ∈ entries ->
                      (<[entry := stripped objects entry]> objects) !!! r
                      = objects !!! r) as Hsame.
    { intros r Hr. apply lookup_total_insert_ne. by intros ->. }
    split; [by constructor|]. split.
    + constructor; [done|].
      apply Forall2_same_length_lookup. split; [by eapply Forall2_length|].
      intros i r pt Hr Hpt. eapply made_from_same.
      * symmetry. apply Hsame. by eapply list_elem_of_lookup_2.
      * by eapply Forall2_lookup_lr.
    + intros r. rewrite Hpopped.
      destruct (decide (r ∈ entries)) as [Hr|Hr].
      * rewrite decide_True by (by right). unfold stripped.
        by rewrite Hsame.
      * destruct (decide (r = entry)) as [->|Hne].
        -- rewrite decide_True by left. apply lookup_total_insert_eq.
        -- rewrite decide_False by (by intros [?|?]%elem_of_cons).
           by apply lookup_total_insert_ne.
Qed.

Lemma points_of_entries_made (objects : gmap nat (gmap string V)) entries points :
  NoDup entries ->
  Forall2 (made_from point_struct objects) entries points ->
  exists objects',
    points_of_entries point_struct objects entries = Ok (points, objects')
    /\ popped objects objects' entries.
Proof.
  intros Hnd Hall. revert objects points Hall.
  induction Hnd as [|entry entries Hfresh Hnd IH]; intros objects points Hall.
  - inversion Hall; subst. exists objects. split; [done|].
    intros r. by rewrite decide_False by apply not_elem_of_nil.
  - inversion Hall as [|? point ? rest Hpoint Hrest]; subst. simpl.
    rewrite (proj2 (point_of_entry_Ok objects entry point _)
               (conj Hpoint eq_refl)). simpl.
    destruct (IH (<[entry := stripped objects entry]> objects) rest)
      as (objects' & Hrun & Hpopped).
    { apply Forall2_same_length_lookup. split; [by eapply Forall2_length|].
      intros i r pt Hr Hpt. eapply made_from_same.
      - apply lookup_total_insert_ne. intros ->.
        apply Hfresh. by eapply list_elem_of_lookup_2.
      - by eapply Forall2_lookup_lr. }
    rewrite Hrun. simpl. exists objects'. split; [done|].
    assert (points_of_entries point_struct objects (entry :: entries)
            = Ok (point :: rest, objects')) as Hfull.
    { simpl.
      rewrite (proj2 (point_of_entry_Ok objects entry point _)
                 (conj Hpoint eq_refl)). simpl.
      by rewrite Hrun. }
    by apply points_of_entries_inv in Hfull as (_ & _ & ?).
Qed.

Lemma points_of_entries_app (objects : gmap nat (gmap string V)) done rest :
  points_of_entries point_struct objects (done ++ rest)
  = (let* first := points_of_entries point_struct objects done in
     let* more := points_of_entries point_struct (snd first) rest in
     Ok (fst first ++ fst more, snd more)).
Proof.
  revert objects. induction done as [|entry done IH]; intros objects; simpl.
  - destruct (points_of_entries point_struct objects rest) as [[??]|]; done.
  - destruct (point_of_entry point_struct objects entry) as [[pt o1]|];
      simpl; [|done].
    rewrite IH.
    destruct (points_of_entries point_struct o1 done) as [[pts o2]|];
      simpl; [|done].
    destruct (points_of_entries point_struct o2 rest) as [[??]|]; done.
Qed.

(** X4. [upsert_vectors] succeeds exactly when [prepare_chunks]
    returns, no dictionary is listed twice, every dictionary holds an
    [id] and a [vector] from which, together with the rest of the
    dictionary as payload, a point can be made, and the store accepts
    these points, one per entry and in the order of the entries; the
    message then reports the number of entries. *)
Theorem upsert_vectors_Ok store document_id chunks llm_service store' response :
  upsert_vectors self writes point_struct prepare_chunks store document_id
    chunks llm_service = Ok (store', response)
  <-> exists objects entries points,
        prepare_chunks document_id chunks llm_service = Ok (objects, entries)
        /\ NoDup entries
        /\ Forall2 (made_from point_struct objects) entries points
        /\ upsert writes store (collection_name self) points true = Ok store'
        /\ response
           = {[ "message" :=
                  "Successfully upserted " +:+ pretty (length entries)
                  +:+ " chunks." ]}.
Proof.
  unfold upsert_vectors. split.
  - intros H. inv_bind H. destruct a as [objects entries].
    inv_bind H. destruct a as [points objects'].
    apply points_of_entries_inv in Ha0 as (Hnd & Hall & _).
    inv_bind H. injection H as <- <-. simpl in *.
    exists objects, entries, points. done.
  - intros (objects & entries & points & -> & Hnd & Hall & Hup & ->). simpl.
    destruct (points_of_entries_made objects entries points Hnd Hall)
      as (objects' & -> & _).
    simpl. by rewrite Hup.
Qed.

(** X5. How [upsert_vectors] fails on a bad entry.  If the entries
    before it are in order, the first entry that lacks [id], or is a
    dictionary already listed, raises [KeyError: 'id']; one that holds
    an [id] but no [vector] raises [KeyError: 'vector'].  This is so
    whatever the store would do: nothing is sent to it. *)
Theorem upsert_vectors_bad_entry store document_id chunks llm_service
    objects done entry rest points :
  prepare_chunks document_id chunks llm_service
  = Ok (objects, done ++ entry :: rest) ->
  NoDup done ->
  Forall2 (made_from point_struct objects) done points ->
  (entry ∈ done \/ (objects !!! entry) !! "id" = None ->
   upsert_vectors self writes point_struct prepare_chunks store document_id
     chunks llm_service = Raise (KeyError "id"))
  /\ (entry ∉ done ->
      is_Some ((objects !!! entry) !! "id") ->
      (objects !!! entry) !! "vector" = None ->
      upsert_vectors self writes point_struct prepare_chunks store document_id
        chunks llm_service = Raise (KeyError "vector")).
Proof.
  intros Hprepared Hnd Hall.
  destruct (points_of_entries_made objects done points Hnd Hall)
    as (o1 & Hdone & Hpopped).
  unfold upsert_vectors. rewrite Hprepared. simpl.
  rewrite points_of_entries_app, Hdone. simpl.
  unfold point_of_entry, pop. rewrite (Hpopped entry). split.
  - intros [Hin|Hid].
    + rewrite decide_True by done. by rewrite stripped_no_id.
    + case_decide; [by rewrite stripped_no_id | by rewrite Hid].
  - intros Hfresh [id Hid] Hvector. rewrite decide_False by done.
    rewrite Hid. simpl.
    by rewrite lookup_total_insert_eq, lookup_delete_ne, Hvector.
Qed.
End IngestionFacts.

(** ** The merge of [hybrid_search] *)
Section Composition.
Context {Vector Rule Store : Type}.
Variable self : QdrantIndex Vector Store.
Variable extract_keywords :
  string -> list Rule -> LLMService Vector -> result (option (list string)).

(** X6. The result of [hybrid_search] is the first 20 keyword-ranked
    chunks followed by the semantic chunks, with duplicates eliminated
    as [vector_search] eliminates them, then put in ascending order of
    chunk number. *)
Theorem hybrid_search_sorts_union store query document_id rules llm_service
    response :
  hybrid_search self extract_keywords store query document_id rules
    llm_service = Ok response ->
  exists keywords sorted_keyword_chunks semantic_response,
    extract_keywords query rules llm_service = Ok keywords
    /\ keyword_phase self store keywords document_id = Ok sorted_keyword_chunks
    /\ similarity_search self store (get_embeddings llm_service) query
         document_id = Ok semantic_response
    /\ chunks response
       = format_chunk
           <$> sorted chunk_number
                 (kept_chunks
                    (take 20 sorted_keyword_chunks ++ semantic_response))
                 false.
Proof.
  intros (cands & Hrun & ->)%hybrid_search_Ok.
  apply hybrid_candidates_Ok in Hrun as (kws & kw & sem & ? & ? & ? & ->).
  exists kws, kw, sem. do 3 (split; [done|]).
  simpl. unfold combine. by rewrite kept_chunks_sorted.
Qed.

End Composition.

(** ** The further properties on the scenarios *)

Lemma vector_search_covers_witness :
  exists final_chunks,
    retrieve Fake.index Scenario.store (get_embeddings Fake.llm_service)
      ["q1"; "q2"] "D" [] = Ok final_chunks
    /\ chunks (Scenario.processed [Scenario.c3; Scenario.c1; Scenario.c5])
       = format_chunk <$> kept_chunks final_chunks
    /\ (forall n,
          n ∈ chunk_number <$> kept_chunks final_chunks
          <-> n ∈ chunk_number <$> final_chunks)
    /\ length (chunks (Scenario.processed
                         [Scenario.c3; Scenario.c1; Scenario.c5]))
       = size (list_to_set (chunk_number <$> final_chunks) : gset Z).
Proof.
  apply (vector_search_covers Fake.index Scenario.store ["q1"; "q2"] "D"
           Fake.llm_service).
  vm_compute; reflexivity.
Defined.


Lemma vector_search_repeated_witness :
  vector_search Fake.index Scenario.store (["q1"; "q2"] ++ ["q2"; "q1"]) "D"
    Fake.llm_service
  = Ok (Scenario.processed [Scenario.c3; Scenario.c1; Scenario.c5]).
Proof.
  apply (vector_search_repeated Fake.index Scenario.store ["q1"; "q2"]
           ["q2"; "q1"] "D" Fake.llm_service);
    [vm_compute; reflexivity | set_solver].
Defined.

Lemma upsert_vectors_Ok_witness :
  exists objects entries points,
    Ingest.prepare_chunks "good" [] Fake.llm_service = Ok (objects, entries)
    /\ NoDup entries
    /\ Forall2 (made_from Ingest.point_struct objects) entries points
    /\ upsert Ingest.writes [] (collection_name Ingest.index) points true
       = Ok [("10", "[1.0, 0.0]", Ingest.payload_of "1" "one");
             ("11", "[1.0, 0.0]", Ingest.payload_of "2" "two")]
    /\ ({[ "message" := "Successfully upserted 2 chunks." ]}
        : gmap string string)
       = {[ "message" :=
              "Successfully upserted " +:+ pretty (length entries)
              +:+ " chunks." ]}.
Proof.
  apply (proj1 (upsert_vectors_Ok Ingest.index Ingest.writes
                  Ingest.point_struct Ingest.prepare_chunks [] "good" []
                  Fake.llm_service _ _)).
  vm_compute; reflexivity.
Defined.

Lemma upsert_vectors_bad_entry_witness :
  upsert_vectors Ingest.index Ingest.writes Ingest.point_struct
    Ingest.prepare_chunks [] "twice" [] Fake.llm_service
  = Raise (KeyError "id")
  /\ upsert_vectors Ingest.index Ingest.writes Ingest.point_struct
       Ingest.prepare_chunks [] "bad" [] Fake.llm_service
     = Raise (KeyError "vector").
Proof.
  assert (Forall2 (made_from Ingest.point_struct Ingest.objects) [0%nat]
            [("10", "[1.0, 0.0]", Ingest.payload_of "1" "one")])
    as Hfirst.
  { repeat constructor.
    exists "10", "[1.0, 0.0]".
    repeat split; vm_compute; reflexivity. }
  split.
  - apply (proj1 (upsert_vectors_bad_entry Ingest.index Ingest.writes
                    Ingest.point_struct Ingest.prepare_chunks [] "twice" []
                    Fake.llm_service Ingest.objects [0%nat] 0%nat [] _
                    eq_refl ltac:(compute_done) Hfirst)).
    left. compute_done.
  - apply (proj2 (upsert_vectors_bad_entry Ingest.index Ingest.writes
                    Ingest.point_struct Ingest.prepare_chunks [] "bad" []
                    Fake.llm_service Ingest.objects [0%nat] 2%nat [] _
                    eq_refl ltac:(compute_done) Hfirst));
      [compute_done | by eexists; vm_compute | vm_compute; reflexivity].
Defined.

Lemma hybrid_search_sorts_union_witness :
  exists keywords sorted_keyword_chunks semantic_response,
    Scenario.extract_keywords "where is foo" [] Fake.llm_service = Ok keywords
    /\ keyword_phase Fake.index Scenario.store keywords "D"
       = Ok sorted_keyword_chunks
    /\ similarity_search Fake.index Scenario.store
         (get_embeddings Fake.llm_service) "where is foo" "D"
       = Ok semantic_response
    /\ chunks (Scenario.processed [Scenario.c1; Scenario.c2; Scenario.c4])
       = format_chunk
           <$> sorted chunk_number
                 (kept_chunks
                    (take 20 sorted_keyword_chunks ++ semantic_response))
                 false.
Proof.
  apply (hybrid_search_sorts_union Fake.index Scenario.extract_keywords
           Scenario.store "where is foo" "D" [] Fake.llm_service).
  vm_compute; reflexivity.
Defined.
